(** * QLM: the arc language-model forward pass

    A shallow embedding of [src/deprecated/models/arc.py] (class
    [ArcLmModel]): the block attention mask, the position ids, the negative
    sampler, the construction of the arc inputs, the two-class arc scores
    and the arc targets.

    Tensors are nested lists that carry their shape, as a torch tensor
    does; torch operations that raise on a shape or index error return
    [option]. *)

From Stdlib Require Import ZArith List Bool Lia.
From Stdlib Require Import Floats.SpecFloat.
From stdpp Require Import base option list gmap.

Open Scope Z_scope.
Open Scope nat_scope.

(** ** Two-dimensional tensors *)

Record tensor (A : Type) : Type := Tensor {
  shape0 : nat;              (* size of dim 0 (rows, the batch) *)
  shape1 : nat;              (* size of dim 1 (columns, the sequence) *)
  data : list (list A)       (* row-major contents *)
}.
Arguments Tensor {A} _ _ _.
Arguments shape0 {A} _.
Arguments shape1 {A} _.
Arguments data {A} _.

(** The contents agree with the recorded shape. *)
Definition wf {A} (t : tensor A) : Prop :=
  length (data t) = shape0 t ∧ Forall (λ r, length r = shape1 t) (data t).

(** [t[i, j]], [None] outside the tensor. *)
Definition get {A} (t : tensor A) (i j : nat) : option A :=
  data t !! i ≫= λ r, r !! j.

(** Elementwise map ([-t], [t / 2], [t == v], [~t], a per-position layer). *)
Definition tmap {A B} (f : A → B) (t : tensor A) : tensor B :=
  Tensor (shape0 t) (shape1 t) (map (map f) (data t)).

(** [torch.full((n, m), v)]; [torch.ones] is [full] at the unit. *)
Definition full {A} (n m : nat) (v : A) : tensor A :=
  Tensor n m (replicate n (replicate m v)).

(** [torch.ones(n, m, dtype=torch.bool)] *)
Definition ones_bool (n m : nat) : tensor bool := full n m true.

(** [torch.triu(t, diagonal=d)] on a boolean tensor: entry (i, j) is kept
    when [j - i >= d] and zeroed (False) otherwise. *)
Definition triu (t : tensor bool) (d : Z) : tensor bool :=
  Tensor (shape0 t) (shape1 t)
    (imap (λ i r, imap (λ j x,
       if (d <=? Z.of_nat j - Z.of_nat i)%Z then x else false) r) (data t)).

(** [torch.eye(n, dtype=torch.bool)] *)
Definition eye (n : nat) : tensor bool :=
  Tensor n n (map (λ i, map (λ j, Nat.eqb i j) (seq 0 n)) (seq 0 n)).

(** [~t] *)
Definition lnot (t : tensor bool) : tensor bool := tmap negb t.

(** [torch.cat([a, b], dim=1)]: the sizes of dim 0 must agree. *)
Definition cat1 {A} (a b : tensor A) : option (tensor A) :=
  if decide (shape0 a = shape0 b)
  then Some (Tensor (shape0 a) (shape1 a + shape1 b)
               (zip_with app (data a) (data b)))
  else None.

(** [torch.cat([a, b], dim=0)]: the sizes of dim 1 must agree. *)
Definition cat0 {A} (a b : tensor A) : option (tensor A) :=
  if decide (shape1 a = shape1 b)
  then Some (Tensor (shape0 a + shape0 b) (shape1 a) (data a ++ data b))
  else None.

(** ** The attention mask and the position ids *)

(** [ArcLmModel._get_arc_mask] (arc.py, lines 33-57). *)
Definition _get_arc_mask (input_ids : tensor Z) (cached : bool)
  : option (tensor bool) :=
  let seq_length := shape1 input_ids in
  (* mask with no attention *)
  let full_mask := ones_bool seq_length seq_length in
  let nw := triu full_mask 1 in       (* self attending *)
  let sw := triu full_mask 0 in       (* cross attending *)
  let ne := full_mask in              (* empty *)
  let se := lnot (eye seq_length) in  (* only self *)
  if cached then cat1 sw se
  else
    top ← cat1 nw ne;
    bot ← cat1 sw se;
    cat0 top bot.

(** [ArcLmModel._get_arc_position_ids] (arc.py, lines 60-75): a
    one-dimensional tensor, whose shape is its length. *)
Definition _get_arc_position_ids (input_ids : tensor Z) (cached : bool)
  : list Z :=
  let seq_length := shape1 input_ids in
  let position_ids := map Z.of_nat (seq 0 seq_length) in
  if cached then position_ids else position_ids ++ position_ids.

(** Modelled from the spec: the meaning of a mask entry is fixed by the
    attention layer of [models.base], which is not part of the sources; the
    data model says that [True] at (i, j) means that position i is not
    permitted to attend to position j. *)
Definition may_attend (mask : tensor bool) (i j : nat) : Prop :=
  get mask i j = Some false.

(** The number of columns that row [r] of a mask may attend to. *)
Definition keys_permitted (mask : tensor bool) (r : nat) : nat :=
  length (filter (λ c, get mask r c = Some false) (seq 0 (shape1 mask))).

(** ** Python indexing *)

(** A slice bound resolved against a dimension of size [len], as Python's
    [slice.indices] does for step 1: a negative bound counts from the end,
    and every bound is clamped into [0, len]. *)
Definition py_bound (len : nat) (i : Z) : nat :=
  if (i <? 0)%Z then Z.to_nat (Z.max (i + Z.of_nat len) 0)
  else Z.to_nat (Z.min i (Z.of_nat len)).

(** [start:stop] on a dimension of size [len]: the half-open range
    [lo, hi); an omitted bound is [None]. *)
Definition py_slice (start stop : option Z) (len : nat) : nat * nat :=
  (from_option (py_bound len) 0 start, from_option (py_bound len) len stop).

(** An integer index on a dimension of size [len]; out of range raises
    IndexError. *)
Definition py_index (len : nat) (i : Z) : option nat :=
  if (0 <=? i)%Z && (i <? Z.of_nat len)%Z then Some (Z.to_nat i)
  else if (- Z.of_nat len <=? i)%Z && (i <? 0)%Z
       then Some (Z.to_nat (i + Z.of_nat len))
       else None.

(** [t[:, lo:hi]] *)
Definition slice_cols {A} (sl : nat * nat) (t : tensor A) : tensor A :=
  let '(lo, hi) := sl in
  Tensor (shape0 t) (hi - lo) (map (λ r, take (hi - lo) (drop lo r)) (data t)).

(** [dst[:, lo:hi] = src] for a tensor [src]: the value of [dst] after the
    assignment. torch broadcasts [src] to the shape of the slice and raises
    when it cannot; here a shape that differs from the slice's is an error
    (the sources only assign a tensor of exactly that shape). *)
Definition setitem_cols {A} (sl : nat * nat) (src dst : tensor A)
  : option (tensor A) :=
  let '(lo, hi) := sl in
  if decide (shape0 src = shape0 dst ∧ shape1 src = hi - lo)
  then Some (Tensor (shape0 dst) (shape1 dst)
               (zip_with (λ d s, take lo d ++ s ++ drop (lo + (hi - lo)) d)
                  (data dst) (data src)))
  else None.

(** [t[:, lo:hi] = v] for a scalar [v]: the value of [t] afterwards. *)
Definition fill_cols {A} (sl : nat * nat) (v : A) (t : tensor A) : tensor A :=
  let '(lo, hi) := sl in
  Tensor (shape0 t) (shape1 t)
    (map (λ d, take lo d ++ replicate (hi - lo) v ++ drop (lo + (hi - lo)) d)
       (data t)).

(** [t[:, i] = v] for a scalar [v] and an integer index [i]: IndexError
    when [i] is out of range for dim 1. *)
Definition fill_col {A} (i : Z) (v : A) (t : tensor A) : option (tensor A) :=
  j ← py_index (shape1 t) i;
  Some (Tensor (shape0 t) (shape1 t) (map (λ d, <[j := v]> d) (data t))).

(** [torch.masked_fill(t, mask, v)]: a new tensor. The mask must be
    broadcastable to [t]; here it must have the shape of [t] (the sources
    only pass such a mask). *)
Definition masked_fill {A} (t : tensor A) (mask : tensor bool) (v : A)
  : option (tensor A) :=
  if decide (shape0 mask = shape0 t ∧ shape1 mask = shape1 t)
  then Some (Tensor (shape0 t) (shape1 t)
               (zip_with (zip_with (λ x (m : bool), if m then v else x))
                  (data t) (data mask)))
  else None.

(** [torch.stack([a, b], dim=-1)]: shape [n, m, 2], held as an [n] by [m]
    tensor of the two-element vectors along the last dim. *)
Definition stack_last {A} (a b : tensor A) : option (tensor (list A)) :=
  if decide (shape0 a = shape0 b ∧ shape1 a = shape1 b)
  then Some (Tensor (shape0 a) (shape1 a)
               (zip_with (zip_with (λ x y, [x; y])) (data a) (data b)))
  else None.

(** [t[:, :, k]] on a tensor of shape [n, m, d] held as above: IndexError
    unless every vector along the last dim has an entry [k]. *)
Definition select_last {A} (k : nat) (t : tensor (list A))
  : option (tensor A) :=
  rows ← mapM (mapM (λ v : list A, v !! k)) (data t);
  Some (Tensor (shape0 t) (shape1 t) rows).

(** A float whose sign bit is [s]; NaN has no sign. *)
Definition has_sign (s : bool) (x : spec_float) : Prop :=
  match x with
  | S754_zero s' | S754_infinity s' | S754_finite s' _ _ => s' = s
  | S754_nan => False
  end.

(** ** The model's collaborators *)

(** What [ArcLmModel] takes from [models.base], [torch.nn] and its
    configuration: the transformer backbone with its key/value cache, the
    two linear heads, and the floating-point format of the activations. *)
Class Model := {
  hidden : Type;                 (* a hidden state: one vector per position *)
  logits : Type;                 (* a score vector over the vocabulary *)
  cache : Type;                  (* the key/value cache *)
  DynamicCache : cache;          (* a new, empty cache *)
  (* [self.model(input_ids, attention_mask, position_ids, kv)]: the hidden
     states and the cache as the call leaves it *)
  model : tensor Z → option (tensor bool) → option (list Z) → cache
          → tensor hidden * cache;
  lm_head : hidden → logits;     (* nn.Linear(hidden_size, vocab_size) *)
  log_softmax : logits → logits; (* F.log_softmax(_, dim=-1) *)
  (* nn.Linear(hidden_size, 1, bias=False): its single output feature *)
  arc_head : hidden → spec_float;
  prec : Z;                      (* mantissa bits of the float dtype *)
  emax : Z                       (* exponent of its infinities *)
}.

(** Modelled from the spec: the backbone ([BaseTransformer] of
    [models.base]) is not part of the sources; its interface says that a
    run on ids of shape [batch, len] gives hidden states
    [batch, len, hidden], one per token, with or without a mask, position
    ids and a filled cache. *)
Definition model_keeps_shape `{Model} : Prop :=
  ∀ ids mask pos kv,
    wf ids →
    wf (model ids mask pos kv).1
    ∧ shape0 (model ids mask pos kv).1 = shape0 ids
    ∧ shape1 (model ids mask pos kv).1 = shape1 ids.

Section Forward.
Context `{Model}.

(** The Python integer [2] in the float dtype. *)
Definition two : spec_float := binary_normalize prec emax 2 0 false.

(** [-t] and [t / 2] on a float tensor. *)
Definition fneg (x : spec_float) : spec_float := SFopp x.
Definition fhalf (x : spec_float) : spec_float := SFdiv prec emax x two.
Definition fadd (x y : spec_float) : spec_float := SFadd prec emax x y.

(** Neither infinite nor NaN. *)
Definition is_finite (x : spec_float) : bool :=
  match x with
  | S754_zero _ | S754_finite _ _ _ => true
  | S754_infinity _ | S754_nan => false
  end.

(** One draw of [torch.distributions.Categorical(logits=lm_logits).sample()]:
    [draw b t v] is the token id drawn at row [b], position [t], where the
    log-probabilities are [v]. The result has the batch shape of
    [lm_logits]. The draw is taken to succeed (torch rejects logits that
    hold NaN). *)
Definition sample (draw : nat → nat → logits → Z) (lm_logits : tensor logits)
  : tensor Z :=
  Tensor (shape0 lm_logits) (shape1 lm_logits)
    (imap (λ b r, imap (λ t v, draw b t v) r) (data lm_logits)).

(** [t.clone()]: the value of the copy. *)
Definition clone {A} (t : tensor A) : tensor A := t.

(** The negative samples (arc.py, lines 110-115). *)
Definition negative_samples (draw : nat → nat → logits → Z)
    (input_ids : tensor Z) (lm_logits : tensor logits) (debug : bool)
  : option (tensor Z) :=
  let neg_ids := sample draw lm_logits in
  if debug then
    let neg_ids := clone input_ids in
    setitem_cols (py_slice None (Some (-1)%Z) (shape1 neg_ids))
      (slice_cols (py_slice (Some 1%Z) None (shape1 input_ids)) input_ids)
      neg_ids
  else Some neg_ids.

(** The arc inputs (arc.py, lines 117-124). *)
Definition arc_inputs (input_ids neg_ids : tensor Z) : option (tensor Z) :=
  cat1 (slice_cols (py_slice None (Some 1%Z) (shape1 input_ids)) input_ids)
       (slice_cols (py_slice None (Some (-1)%Z) (shape1 neg_ids)) neg_ids).

(** The arc predictions (arc.py, lines 143-149). [-arc_preds/2] is
    [(-arc_preds)/2] in Python. *)
Definition arc_predictions (arc_states : tensor hidden)
  : option (tensor (list spec_float)) :=
  (* self.arc_head(arc_states) has shape [batch, 2 * seq_length, 1] *)
  arc_preds ← select_last 0 (tmap (λ h, [arc_head h]) arc_states);
  stack_last (tmap fhalf (tmap fneg arc_preds)) (tmap fhalf arc_preds).

(** The arc targets (arc.py, lines 151-162). *)
Definition arc_target_tensor (input_ids : tensor Z) (pad_token_id : Z)
  : option (tensor Z) :=
  let batch_size := shape0 input_ids in
  let seq_length := shape1 input_ids in
  (* first sequence is zero, second is 1 *)
  let arc_targets := full batch_size (2 * seq_length) 1%Z in
  let arc_targets :=
    fill_cols (py_slice None (Some (Z.of_nat seq_length)) (shape1 arc_targets))
      0%Z arc_targets in
  (* target padding (first token of each sequence is ignored) *)
  arc_targets ← fill_col 0%Z (-1)%Z arc_targets;
  arc_targets ← fill_col (Z.of_nat seq_length) (-1)%Z arc_targets;
  doubled ← cat1 input_ids input_ids;
  masked_fill arc_targets (tmap (λ x, (x =? pad_token_id)%Z) doubled) (-1)%Z.

(** The label of column [p], given the token [x] of the doubled input
    there. *)
Definition arc_label (L : nat) (pad_token_id : Z) (p : nat) (x : Z) : Z :=
  if decide (p = 0 ∨ p = L ∨ x = pad_token_id) then (-1)%Z
  else if decide (p < L) then 0%Z else 1%Z.

(** The local variables of [forward] that the returned triple does not
    show. *)
Record locals := Locals {
  l_neg_ids : tensor Z;
  l_arc_ids : tensor Z;
  l_arc_mask : tensor bool;
  l_arc_position_ids : list Z;
  l_arc_states : tensor hidden
}.

(** [ArcLmModel.forward] up to the arc hidden states (arc.py, lines
    100-141), with its local variables. *)
Definition forward_states (draw : nat → nat → logits → Z)
    (input_ids : tensor Z) (debug : bool)
  : option (tensor logits * locals) :=
  (* reuse kv cache *)
  let kv := DynamicCache in
  (* get lm predictions *)
  let '(out, kv) := model input_ids None None kv in
  let lm_logits := tmap lm_head out in
  let lm_logits := tmap log_softmax lm_logits in
  (* get negative samples *)
  neg_ids ← negative_samples draw input_ids lm_logits debug;
  (* get arc inputs *)
  arc_ids ← arc_inputs input_ids neg_ids;
  arc_mask ← _get_arc_mask input_ids true;
  let arc_position_ids := _get_arc_position_ids input_ids true in
  (* get arc outputs *)
  let '(arc_out, kv) :=
    model arc_ids (Some arc_mask) (Some arc_position_ids) kv in
  arc_states ← cat1 out arc_out;
  Some (lm_logits,
        Locals neg_ids arc_ids arc_mask arc_position_ids arc_states).

(** [ArcLmModel.forward] (arc.py, lines 78-168): the triple
    [(lm_logits, arc_preds, arc_targets)], or [None] when the call raises.
    Token ids, positions and labels are int64 ([torch.LongTensor]); no
    arithmetic is done on them and -1, 0 and 1 fit, so they are [Z] with
    nothing to wrap. *)
Definition forward (draw : nat → nat → logits → Z)
    (input_ids : tensor Z) (pad_token_id : Z) (debug : bool)
  : option (tensor logits * tensor (list spec_float) * tensor Z) :=
  '(lm_logits, loc) ← forward_states draw input_ids debug;
  arc_preds ← arc_predictions (l_arc_states loc);
  arc_targets ← arc_target_tensor input_ids pad_token_id;
  Some (lm_logits, arc_preds, arc_targets).

(** ** In-place updates: the store of integer tensors

    [forward] writes into tensors in place ([neg_ids[:, :-1] = ...],
    [arc_targets[:, 0] = -1]). To follow which tensor each write reaches,
    the integer tensors live in a store and the code handles references to
    them. A computation may raise; the store keeps the writes made before
    the exception. The backbone and the heads are taken to read their
    arguments only. *)

Definition loc : Type := positive.

Definition M (A : Type) : Type :=
  gmap loc (tensor Z) → option A * gmap loc (tensor Z).

Definition ret {A} (a : A) : M A := λ h, (Some a, h).

Definition bind {A B} (m : M A) (k : A → M B) : M B :=
  λ h, match m h with
       | (Some a, h') => k a h'
       | (None, h') => (None, h')
       end.

Notation "'let!' x ':=' m 'in' k" := (bind m (λ x, k))
  (at level 10, x pattern, m at level 100, k at level 200).

(** An operation that may raise and touches no tensor in place. *)
Definition lift {A} (o : option A) : M A := λ h, (o, h).

(** A new tensor: a reference no live tensor has. *)
Definition alloc (t : tensor Z) : M loc :=
  λ h, let l := fresh (dom h) in (Some l, <[l := t]> h).

(** The current value behind a reference. *)
Definition load (l : loc) : M (tensor Z) := λ h, (h !! l, h).

(** An in-place operation on the tensor behind [l]. *)
Definition update (l : loc) (f : tensor Z → option (tensor Z)) : M unit :=
  λ h, match h !! l ≫= f with
       | Some t => (Some (), <[l := t]> h)
       | None => (None, h)
       end.

(** A computation keeps the tensors of the store [h0] as they are: run in
    any store that extends [h0], it leaves a store that extends [h0],
    whether it returns or raises; [Q] holds of what it returns. *)
Definition preserves {A} (h0 : gmap loc (tensor Z)) (m : M A) (Q : A → Prop)
  : Prop :=
  ∀ h, h0 ⊆ h → h0 ⊆ (m h).2 ∧ ∀ a, (m h).1 = Some a → Q a.

(** [Q] holds of the outcome and the final store of running [m] in the
    store [h]. *)
Definition runs {A} (m : M A) (h : gmap loc (tensor Z))
    (Q : option A → gmap loc (tensor Z) → Prop) : Prop :=
  Q (m h).1 (m h).2.

(** Started in the store [h], a stage leaves a store that extends [h] and
    returns a reference to a new tensor whose value is [pure], or raises
    when [pure] is [None]. *)
Definition yields (pure : option (tensor Z)) (h : gmap loc (tensor Z))
    (r : option loc) (h' : gmap loc (tensor Z)) : Prop :=
  h ⊆ h'
  ∧ match pure with
    | Some v => ∃ l, r = Some l ∧ h' !! l = Some v ∧ h !! l = None
    | None => r = None
    end.

(** The negative samples on references (arc.py, lines 110-115): the draw
    is a new tensor; with debug, [neg_ids] is rebound to a copy of the
    input and the assignment writes into that copy. *)
Definition negative_samples_ref (draw : nat → nat → logits → Z)
    (input_ids : loc) (lm_logits : tensor logits) (debug : bool) : M loc :=
  (* neg_ids = dist.sample() *)
  let! neg_ids := alloc (sample draw lm_logits) in
  if debug then
    (* neg_ids = input_ids.clone() *)
    let! neg_ids := (let! x := load input_ids in alloc (clone x)) in
    (* neg_ids[:, :-1] = input_ids[:, 1:] *)
    let! src := load input_ids in
    let! _ := update neg_ids (λ dst,
      setitem_cols (py_slice None (Some (-1)%Z) (shape1 dst))
        (slice_cols (py_slice (Some 1%Z) None (shape1 src)) src) dst) in
    ret neg_ids
  else ret neg_ids.

(** The arc inputs on references (arc.py, lines 117-124): the slices are
    views that are only read; [torch.cat] makes a new tensor. *)
Definition arc_inputs_ref (input_ids neg_ids : loc) : M loc :=
  let! x := load input_ids in
  let! n := load neg_ids in
  let! t := lift (arc_inputs x n) in
  alloc t.

(** The arc targets on references (arc.py, lines 151-162): three
    assignments into the new tensor of ones, then [torch.masked_fill],
    which makes a new tensor. *)
Definition arc_target_tensor_ref (input_ids : loc) (pad_token_id : Z)
  : M loc :=
  let! x := load input_ids in
  let batch_size := shape0 x in
  let seq_length := shape1 x in
  (* arc_targets = torch.ones(batch_size, 2*seq_length, ...) *)
  let! arc_targets := alloc (full batch_size (2 * seq_length) 1%Z) in
  (* arc_targets[:, :seq_length] = 0 *)
  let! _ := update arc_targets (λ t,
    Some (fill_cols (py_slice None (Some (Z.of_nat seq_length)) (shape1 t))
            0%Z t)) in
  (* arc_targets[:, 0] = -1; arc_targets[:, seq_length] = -1 *)
  let! _ := update arc_targets (fill_col 0%Z (-1)%Z) in
  let! _ := update arc_targets (fill_col (Z.of_nat seq_length) (-1)%Z) in
  (* arc_targets = torch.masked_fill(arc_targets, ... == pad_token_id, -1) *)
  let! x := load input_ids in
  let! doubled := lift (cat1 x x) in
  let! t := load arc_targets in
  let! r := lift (masked_fill t
                    (tmap (λ x, (x =? pad_token_id)%Z) doubled) (-1)%Z) in
  alloc r.

(** [ArcLmModel.forward] on references (arc.py, lines 78-168):
    [input_ids] is the caller's tensor; the result holds a reference to
    the arc targets. *)
Definition forward_ref (draw : nat → nat → logits → Z)
    (input_ids : loc) (pad_token_id : Z) (debug : bool)
  : M (tensor logits * tensor (list spec_float) * loc) :=
  let! x := load input_ids in
  let kv := DynamicCache in
  let '(out, kv) := model x None None kv in
  let lm_logits := tmap log_softmax (tmap lm_head out) in
  let! neg_ids := negative_samples_ref draw input_ids lm_logits debug in
  let! arc_ids := arc_inputs_ref input_ids neg_ids in
  let! arc_mask := lift (_get_arc_mask x true) in
  let arc_position_ids := _get_arc_position_ids x true in
  let! a := load arc_ids in
  let '(arc_out, kv) :=
    model a (Some arc_mask) (Some arc_position_ids) kv in
  let! arc_states := lift (cat1 out arc_out) in
  let! arc_preds := lift (arc_predictions arc_states) in
  let! arc_targets := arc_target_tensor_ref input_ids pad_token_id in
  ret (lm_logits, arc_preds, arc_targets).

End Forward.

(** ** A small model to run the definitions on

    Activations in IEEE binary32 ([prec = 24], [emax = 128]); the backbone
    embeds a token id as the float of that value, whatever the mask and the
    cache; the arc head multiplies by one weight, 2^124
    (finite in binary32, whose largest finite number is just under
    2^128). *)

Definition float_of_Z (z : Z) : spec_float := binary_normalize 24 128 z 0 false.

Definition toy_model : Model := {|
  hidden := spec_float;
  logits := Z;
  cache := unit;
  DynamicCache := tt;
  model := λ ids _ _ kv, (tmap float_of_Z ids, kv);
  lm_head := λ h, match h with S754_finite _ m _ => Zpos m | _ => 0%Z end;
  log_softmax := λ v, v;
  arc_head := λ h, SFmul 24 128 (float_of_Z (2 ^ 124)) h;
  prec := 24;
  emax := 128
|}.

(** A draw that picks, at every position, the token after the logit. *)
Definition toy_draw (b t : nat) (v : Z) : Z := (v + 1)%Z.

(** One row, four tokens, the last one the pad id 0 (the end-to-end example
    of the testable properties), and two rows of three tokens. *)
Definition ids_5670 : tensor Z := Tensor 1 4 [[5; 6; 7; 0]]%Z.
Definition ids_2x3 : tensor Z := Tensor 2 3 [[5; 6; 7]; [8; 16; 9]]%Z.
(** ** Reading tensors built by the operations *)

Section TensorLemmas.
Context {A : Type}.
Implicit Types (t a b c : tensor A).

Lemma wf_row t i r : wf t → data t !! i = Some r → length r = shape1 t.
Proof.
  intros [_ Hall] Hi. rewrite Forall_lookup in Hall. eauto.
Qed.

Lemma wf_has_row t i : wf t → i < shape0 t → ∃ r, data t !! i = Some r.
Proof.
  intros [Hlen _] Hi. apply lookup_lt_is_Some_2. lia.
Qed.

Lemma get_is_Some t i j :
  wf t → i < shape0 t → j < shape1 t → is_Some (get t i j).
Proof.
  intros Hwf Hi Hj. destruct (wf_has_row t i Hwf Hi) as [r Hr].
  unfold get. rewrite Hr. simpl. apply lookup_lt_is_Some_2.
  rewrite (wf_row t i r Hwf Hr). done.
Qed.

Lemma get_cols_None t i j : wf t → shape1 t ≤ j → get t i j = None.
Proof.
  intros Hwf Hj. unfold get. destruct (data t !! i) as [r|] eqn:Hr; [|done].
  simpl. apply lookup_ge_None_2. rewrite (wf_row t i r Hwf Hr). done.
Qed.

Lemma get_rows_None t i j : wf t → shape0 t ≤ i → get t i j = None.
Proof.
  intros [Hlen _] Hi. unfold get. rewrite lookup_ge_None_2; [done|lia].
Qed.

Lemma get_full n m (v : A) i j :
  i < n → j < m → get (full n m v) i j = Some v.
Proof.
  intros Hi Hj. unfold get, full. simpl.
  rewrite lookup_replicate_2 by done. simpl.
  by rewrite lookup_replicate_2.
Qed.

Lemma wf_full n m (v : A) : wf (full n m v).
Proof.
  split; simpl.
  - by rewrite length_replicate.
  - apply Forall_replicate. by rewrite length_replicate.
Qed.

Lemma get_tmap {B} (f : A → B) t i j : get (tmap f t) i j = f <$> get t i j.
Proof.
  unfold get, tmap. simpl. rewrite list_lookup_fmap.
  destruct (data t !! i) as [r|]; simpl; [|done].
  by rewrite list_lookup_fmap.
Qed.

Lemma wf_tmap {B} (f : A → B) t : wf t → wf (tmap f t).
Proof.
  intros [Hlen Hall]. split; simpl.
  - by rewrite length_map.
  - apply Forall_fmap. eapply Forall_impl; [exact Hall|].
    intros r Hr. simpl. by rewrite length_map.
Qed.

Lemma cat1_shape a b c :
  cat1 a b = Some c →
  shape0 c = shape0 a ∧ shape1 c = shape1 a + shape1 b
  ∧ data c = zip_with app (data a) (data b).
Proof.
  unfold cat1. case_decide; [|done]. intros [= <-]. done.
Qed.

Lemma cat1_is_Some a b : shape0 a = shape0 b → is_Some (cat1 a b).
Proof. intros H. unfold cat1. rewrite decide_True by done. eauto. Qed.

Lemma wf_cat1 a b c : wf a → wf b → cat1 a b = Some c → wf c.
Proof.
  intros [Ha1 Ha2] [Hb1 Hb2] Hc.
  unfold cat1 in Hc. case_decide as Hs; [|done]. injection Hc as <-.
  split; simpl.
  - rewrite length_zip_with. lia.
  - rewrite Forall_lookup. intros i r Hr.
    apply lookup_zip_with_Some in Hr as (x & y & -> & Hx & Hy).
    rewrite Forall_lookup in Ha2. rewrite Forall_lookup in Hb2.
    rewrite length_app. erewrite Ha2, Hb2; eauto.
Qed.

(** Columns of [cat([a, b], dim=1)]: first those of [a], then those of
    [b]. *)
Lemma get_cat1_l a b c i j :
  wf a → wf b → cat1 a b = Some c → i < shape0 a → j < shape1 a →
  get c i j = get a i j.
Proof.
  intros Ha Hb Hc Hi Hj.
  destruct (cat1_shape _ _ _ Hc) as (Hs0 & Hs1 & Hd).
  assert (shape0 a = shape0 b) as Hab
    by (unfold cat1 in Hc; by case_decide).
  destruct (wf_has_row a i Ha Hi) as [ra Hra].
  destruct (wf_has_row b i Hb ltac:(lia)) as [rb Hrb].
  unfold get. rewrite Hd, lookup_zip_with, Hra, Hrb. simpl.
  apply lookup_app_l. rewrite (wf_row a i ra Ha Hra). done.
Qed.

Lemma get_cat1_r a b c i j :
  wf a → wf b → cat1 a b = Some c → i < shape0 a →
  get c i (shape1 a + j) = get b i j.
Proof.
  intros Ha Hb Hc Hi.
  destruct (cat1_shape _ _ _ Hc) as (Hs0 & Hs1 & Hd).
  assert (shape0 a = shape0 b) as Hab
    by (unfold cat1 in Hc; by case_decide).
  destruct (wf_has_row a i Ha Hi) as [ra Hra].
  destruct (wf_has_row b i Hb ltac:(lia)) as [rb Hrb].
  unfold get. rewrite Hd, lookup_zip_with, Hra, Hrb. simpl.
  rewrite lookup_app_r by (rewrite (wf_row a i ra Ha Hra); lia).
  rewrite (wf_row a i ra Ha Hra). f_equal. lia.
Qed.

Lemma cat0_shape a b c :
  cat0 a b = Some c →
  shape0 c = shape0 a + shape0 b ∧ shape1 c = shape1 a
  ∧ data c = data a ++ data b.
Proof.
  unfold cat0. case_decide; [|done]. intros [= <-]. done.
Qed.

Lemma wf_cat0 a b c : wf a → wf b → cat0 a b = Some c → wf c.
Proof.
  intros [Ha1 Ha2] [Hb1 Hb2] Hc.
  unfold cat0 in Hc. case_decide as Hs; [|done]. injection Hc as <-.
  split; simpl.
  - rewrite length_app. lia.
  - apply Forall_app. split; [done|]. by rewrite Hs.
Qed.

Lemma get_cat0_l a b c i j :
  wf a → cat0 a b = Some c → i < shape0 a → get c i j = get a i j.
Proof.
  intros [Ha _] Hc Hi. destruct (cat0_shape _ _ _ Hc) as (_ & _ & Hd).
  unfold get. rewrite Hd, lookup_app_l by lia. done.
Qed.

Lemma get_cat0_r a b c i j :
  wf a → cat0 a b = Some c → get c (shape0 a + i) j = get b i j.
Proof.
  intros [Ha _] Hc. destruct (cat0_shape _ _ _ Hc) as (_ & _ & Hd).
  unfold get. rewrite Hd, lookup_app_r by lia.
  rewrite Ha. do 2 f_equal. lia.
Qed.
End TensorLemmas.

(** ** The blocks of the mask *)

Lemma get_triu t d i j :
  get (triu t d) i j
  = (λ x : bool, if (d <=? Z.of_nat j - Z.of_nat i)%Z then x else false)
      <$> get t i j.
Proof.
  unfold get, triu. simpl. rewrite list_lookup_imap.
  destruct (data t !! i) as [r|]; simpl; [|done].
  by rewrite list_lookup_imap.
Qed.

Lemma wf_triu t d : wf t → wf (triu t d).
Proof.
  intros [Hlen Hall]. split; simpl.
  - by rewrite length_imap.
  - rewrite Forall_lookup. intros i r. rewrite list_lookup_imap.
    destruct (data t !! i) as [r0|] eqn:Hr0; simpl; [|done].
    intros [= <-]. rewrite length_imap.
    rewrite Forall_lookup in Hall. eauto.
Qed.

Lemma get_eye n i j : i < n → j < n → get (eye n) i j = Some (Nat.eqb i j).
Proof.
  intros Hi Hj. unfold get, eye. simpl.
  rewrite list_lookup_fmap, lookup_seq_lt by done. simpl.
  by rewrite list_lookup_fmap, lookup_seq_lt.
Qed.

Lemma wf_eye n : wf (eye n).
Proof.
  split; simpl.
  - by rewrite length_map, length_seq.
  - apply Forall_fmap, Forall_forall. intros i _. simpl.
    by rewrite length_map, length_seq.
Qed.

(** The self-attending block: blocked strictly above the diagonal. *)
Lemma get_nw n i j :
  i < n → j < n →
  get (triu (ones_bool n n) 1) i j = Some (bool_decide (i < j)).
Proof.
  intros Hi Hj. rewrite get_triu. unfold ones_bool.
  rewrite get_full by done. simpl. f_equal.
  case_bool_decide; destruct (Z.leb_spec 1 (Z.of_nat j - Z.of_nat i)); lia || done.
Qed.

(** The cross-attending block: blocked on and above the diagonal. *)
Lemma get_sw n i j :
  i < n → j < n →
  get (triu (ones_bool n n) 0) i j = Some (bool_decide (i ≤ j)).
Proof.
  intros Hi Hj. rewrite get_triu. unfold ones_bool.
  rewrite get_full by done. simpl. f_equal.
  case_bool_decide; destruct (Z.leb_spec 0 (Z.of_nat j - Z.of_nat i)); lia || done.
Qed.

(** The self-only block: blocked off the diagonal. *)
Lemma get_se n i j :
  i < n → j < n →
  get (lnot (eye n)) i j = Some (bool_decide (i ≠ j)).
Proof.
  intros Hi Hj. unfold lnot. rewrite get_tmap, get_eye by done. simpl. f_equal.
  case_bool_decide; destruct (Nat.eqb_spec i j); done.
Qed.

Lemma wf_ones_bool n m : wf (ones_bool n m).
Proof. apply wf_full. Qed.

Lemma wf_se n : wf (lnot (eye n)).
Proof. apply wf_tmap, wf_eye. Qed.

(** The cached mask is always built. *)
Lemma cached_mask_is_Some (input_ids : tensor Z) :
  ∃ mask, _get_arc_mask input_ids true = Some mask.
Proof.
  unfold _get_arc_mask. apply (cat1_is_Some (A:=bool)). done.
Qed.

(** C1: for every sequence length L, the uncached mask is a 2L by 2L
    boolean matrix of four L by L quadrants. Top left: True (blocked)
    exactly strictly above the diagonal. Top right: True everywhere.
    Bottom left: True exactly on and above the diagonal. Bottom right: True
    exactly off the diagonal. *)
Theorem arc_mask_uncached (input_ids : tensor Z) :
  let L := shape1 input_ids in
  ∃ mask,
    _get_arc_mask input_ids false = Some mask
    ∧ shape0 mask = 2 * L ∧ shape1 mask = 2 * L ∧ wf mask
    ∧ ∀ i j, i < L → j < L →
        get mask i j = Some (bool_decide (i < j))
        ∧ get mask i (L + j) = Some true
        ∧ get mask (L + i) j = Some (bool_decide (i ≤ j))
        ∧ get mask (L + i) (L + j) = Some (bool_decide (i ≠ j)).
Proof.
  intros L. unfold _get_arc_mask. fold L.
  set (nw := triu (ones_bool L L) 1). set (sw := triu (ones_bool L L) 0).
  set (ne := ones_bool L L). set (se := lnot (eye L)).
  assert (wf nw) as Hnw by apply wf_triu, wf_ones_bool.
  assert (wf sw) as Hsw by apply wf_triu, wf_ones_bool.
  assert (wf ne) as Hne by apply wf_ones_bool.
  assert (wf se) as Hse by apply wf_se.
  destruct (cat1_is_Some nw ne eq_refl) as [top Htop].
  destruct (cat1_is_Some sw se eq_refl) as [bot Hbot].
  rewrite Htop, Hbot. simpl.
  destruct (cat1_shape _ _ _ Htop) as (Ht0 & Ht1 & _).
  destruct (cat1_shape _ _ _ Hbot) as (Hb0 & Hb1 & _).
  simpl in Ht0, Ht1, Hb0, Hb1.
  assert (wf top) as Hwtop by eauto using wf_cat1.
  assert (wf bot) as Hwbot by eauto using wf_cat1.
  destruct (cat0 top bot) as [mask|] eqn:Hmask;
    [|unfold cat0 in Hmask; rewrite decide_True in Hmask by lia; done].
  exists mask. destruct (cat0_shape _ _ _ Hmask) as (Hm0 & Hm1 & _).
  split; [done|]. split; [lia|]. split; [lia|].
  split; [eauto using wf_cat0|].
  intros i j Hi Hj.
  assert (L = shape0 top) as HLt by lia.
  assert (L = shape1 nw) as HLnw by done.
  assert (L = shape1 sw) as HLsw by done.
  repeat split.
  - rewrite (get_cat0_l top bot mask) by (done || lia).
    rewrite (get_cat1_l nw ne top) by done. by apply get_nw.
  - rewrite (get_cat0_l top bot mask) by (done || lia).
    rewrite HLnw at 1. rewrite (get_cat1_r nw ne top) by done.
    by apply get_full.
  - rewrite HLt at 1. rewrite (get_cat0_r top bot mask) by done.
    rewrite (get_cat1_l sw se bot) by done. by apply get_sw.
  - rewrite HLt at 1. rewrite (get_cat0_r top bot mask) by done.
    rewrite HLsw at 1. rewrite (get_cat1_r sw se bot) by done.
    by apply get_se.
Qed.

Lemma arc_mask_uncached_witness :
  ∃ mask,
    _get_arc_mask ids_2x3 false = Some mask
    ∧ get mask 1 2 = Some true ∧ get mask 1 5 = Some true
    ∧ get mask 4 2 = Some true ∧ get mask 4 4 = Some false.
Proof.
  destruct (arc_mask_uncached ids_2x3) as (mask & Hm & _ & _ & _ & Hq).
  exists mask. split; [exact Hm|].
  destruct (Hq 1 2 ltac:(simpl; lia) ltac:(simpl; lia)) as (H1 & H2 & H3 & _).
  destruct (Hq 1 1 ltac:(simpl; lia) ltac:(simpl; lia)) as (_ & _ & _ & H4).
  repeat split; [exact H1 | exact H2 | exact H3 | exact H4].
Defined.

(** C2: for every sequence length L, the cached mask has shape [L, 2L]: the
    cross-attending block followed by the self-only block. Arc position i
    may attend exactly to the cached columns j < i and to its own column i
    of the second half; so it attends neither to the cached token at its
    own index nor to another arc position. *)
Theorem arc_mask_cached (input_ids : tensor Z) :
  let L := shape1 input_ids in
  ∃ mask,
    _get_arc_mask input_ids true = Some mask
    ∧ shape0 mask = L ∧ shape1 mask = 2 * L ∧ wf mask
    ∧ ∀ i j, i < L → j < L →
        get mask i j = Some (bool_decide (i ≤ j))
        ∧ get mask i (L + j) = Some (bool_decide (i ≠ j))
        ∧ (may_attend mask i j ↔ j < i)
        ∧ (may_attend mask i (L + j) ↔ j = i)
        ∧ ¬ may_attend mask i i.
Proof.
  intros L. unfold _get_arc_mask. fold L.
  set (sw := triu (ones_bool L L) 0). set (se := lnot (eye L)).
  assert (wf sw) as Hsw by apply wf_triu, wf_ones_bool.
  assert (wf se) as Hse by apply wf_se.
  destruct (cat1_is_Some sw se eq_refl) as [mask Hmask].
  exists mask. destruct (cat1_shape _ _ _ Hmask) as (Hm0 & Hm1 & _).
  simpl in Hm0, Hm1.
  split; [done|]. split; [done|]. split; [lia|].
  split; [eauto using wf_cat1|].
  intros i j Hi Hj.
  assert (get mask i j = Some (bool_decide (i ≤ j))) as Hl.
  { rewrite (get_cat1_l sw se mask) by done. by apply get_sw. }
  assert (get mask i (L + j) = Some (bool_decide (i ≠ j))) as Hr.
  { change L with (shape1 sw) at 1.
    rewrite (get_cat1_r sw se mask) by done. by apply get_se. }
  assert (get mask i i = Some true) as Hd.
  { rewrite (get_cat1_l sw se mask) by done. unfold sw.
    rewrite get_sw by done. by rewrite bool_decide_true. }
  unfold may_attend. rewrite Hl, Hr, Hd.
  repeat split; try done.
  - intros [= Hb]. apply bool_decide_eq_false in Hb. lia.
  - intros Hji. f_equal. apply bool_decide_eq_false. lia.
  - intros [= Hb]. apply bool_decide_eq_false in Hb.
    destruct (decide (j = i)); [done|]. exfalso. apply Hb. congruence.
  - intros ->. f_equal. apply bool_decide_eq_false. tauto.
Qed.

Lemma arc_mask_cached_witness :
  ∃ mask,
    _get_arc_mask ids_2x3 true = Some mask
    ∧ get mask 2 1 = Some false ∧ get mask 2 4 = Some true
    ∧ (may_attend mask 2 1 ↔ 1 < 2).
Proof.
  destruct (arc_mask_cached ids_2x3) as (mask & Hm & _ & _ & _ & Hq).
  exists mask. split; [exact Hm|].
  destruct (Hq 2 1 ltac:(simpl; lia) ltac:(simpl; lia)) as (H1 & H2 & H3 & _).
  repeat split; [exact H1 | exact H2 | apply H3 | apply H3].
Defined.

(** ** Slices and assignments *)

Lemma py_bound_nonneg len (i : Z) :
  (0 ≤ i)%Z → py_bound len i = Z.to_nat (Z.min i (Z.of_nat len)).
Proof.
  intros Hi. unfold py_bound. destruct (Z.ltb_spec i 0); [lia|done].
Qed.

Lemma py_bound_neg len (i : Z) :
  (i < 0)%Z → py_bound len i = Z.to_nat (Z.max (i + Z.of_nat len) 0).
Proof.
  intros Hi. unfold py_bound. destruct (Z.ltb_spec i 0); [done|lia].
Qed.

Lemma py_slice_to_1 L : py_slice None (Some 1%Z) L = (0, Nat.min 1 L).
Proof.
  unfold py_slice, from_option. rewrite py_bound_nonneg by lia. f_equal. lia.
Qed.

Lemma py_slice_to_m1 L : py_slice None (Some (-1)%Z) L = (0, L - 1).
Proof.
  unfold py_slice, from_option. rewrite py_bound_neg by lia. f_equal. lia.
Qed.

Lemma py_slice_from_1 L : py_slice (Some 1%Z) None L = (Nat.min 1 L, L).
Proof.
  unfold py_slice, from_option. rewrite py_bound_nonneg by lia. f_equal. lia.
Qed.

Lemma py_slice_to_half L :
  py_slice None (Some (Z.of_nat L)) (2 * L) = (0, L).
Proof.
  unfold py_slice, from_option. rewrite py_bound_nonneg by lia. f_equal. lia.
Qed.

Lemma py_index_in L (i : nat) : i < L → py_index L (Z.of_nat i) = Some i.
Proof.
  intros Hi. unfold py_index.
  destruct (Z.leb_spec 0 (Z.of_nat i)); [|lia].
  destruct (Z.ltb_spec (Z.of_nat i) (Z.of_nat L)); [|lia].
  simpl. f_equal. lia.
Qed.

Lemma py_index_out L (i : nat) : L ≤ i → py_index L (Z.of_nat i) = None.
Proof.
  intros Hi. unfold py_index.
  destruct (Z.ltb_spec (Z.of_nat i) (Z.of_nat L)); [lia|].
  destruct (Z.ltb_spec (Z.of_nat i) 0); [lia|].
  by rewrite !andb_false_r.
Qed.

Section SliceLemmas.
Context {A : Type}.
Implicit Types (t src dst : tensor A).

(** Two well-formed tensors of one shape with the same entries are the
    same tensor. *)
Lemma tensor_ext t1 t2 :
  wf t1 → wf t2 → shape0 t1 = shape0 t2 → shape1 t1 = shape1 t2 →
  (∀ i j, i < shape0 t1 → j < shape1 t1 → get t1 i j = get t2 i j) →
  t1 = t2.
Proof.
  intros Hw1 Hw2 Hs0 Hs1 Hget.
  destruct t1 as [n1 m1 d1], t2 as [n2 m2 d2]. simpl in *. subst n2 m2.
  f_equal. apply list_eq. intros i.
  destruct (decide (i < n1)) as [Hi|Hi].
  - destruct (wf_has_row _ i Hw1 Hi) as [r1 Hr1].
    destruct (wf_has_row _ i Hw2 Hi) as [r2 Hr2]. simpl in Hr1, Hr2.
    rewrite Hr1, Hr2. f_equal. apply list_eq. intros j.
    pose proof (wf_row _ i r1 Hw1 Hr1) as Hl1.
    pose proof (wf_row _ i r2 Hw2 Hr2) as Hl2. simpl in Hl1, Hl2.
    destruct (decide (j < m1)) as [Hj|Hj].
    + specialize (Hget i j Hi Hj). unfold get in Hget. simpl in Hget.
      by rewrite Hr1, Hr2 in Hget.
    + rewrite !lookup_ge_None_2 by lia. done.
  - destruct Hw1 as [Hl1 _], Hw2 as [Hl2 _]. simpl in Hl1, Hl2.
    rewrite !lookup_ge_None_2 by lia. done.
Qed.

Lemma slice_cols_shape lo hi t :
  shape0 (slice_cols (lo, hi) t) = shape0 t
  ∧ shape1 (slice_cols (lo, hi) t) = hi - lo.
Proof. done. Qed.

Lemma wf_slice_cols lo hi t :
  wf t → hi ≤ shape1 t → wf (slice_cols (lo, hi) t).
Proof.
  intros [Hlen Hall] Hhi. split; simpl.
  - by rewrite length_map.
  - apply Forall_fmap. eapply Forall_impl; [exact Hall|].
    intros r Hr. simpl in *. rewrite length_take, length_drop. lia.
Qed.

Lemma get_slice_cols lo hi t i j :
  j < hi - lo → get (slice_cols (lo, hi) t) i j = get t i (lo + j).
Proof.
  intros Hj. unfold get, slice_cols. simpl. rewrite list_lookup_fmap.
  destruct (data t !! i) as [r|]; simpl; [|done].
  rewrite lookup_take_lt by done. by rewrite lookup_drop.
Qed.

Lemma setitem_cols_is_Some lo hi src dst :
  shape0 src = shape0 dst → shape1 src = hi - lo →
  ∃ r, setitem_cols (lo, hi) src dst = Some r
       ∧ shape0 r = shape0 dst ∧ shape1 r = shape1 dst
       ∧ data r = zip_with (λ d s, take lo d ++ s ++ drop (lo + (hi - lo)) d)
                    (data dst) (data src).
Proof.
  intros H0 H1. unfold setitem_cols. rewrite decide_True by done. eauto.
Qed.

Lemma wf_setitem_cols lo hi src dst r :
  wf src → wf dst → lo ≤ hi → hi ≤ shape1 dst →
  setitem_cols (lo, hi) src dst = Some r → wf r.
Proof.
  intros [Hs1 Hs2] [Hd1 Hd2] Hlo Hhi Hr. unfold setitem_cols in Hr.
  case_decide as Hsh; [|done]. destruct Hsh as [Hsh0 Hsh1].
  injection Hr as <-. split; simpl.
  - rewrite length_zip_with. lia.
  - rewrite Forall_lookup. intros i x Hx.
    apply lookup_zip_with_Some in Hx as (d & s & -> & Hd & Hs).
    rewrite Forall_lookup in Hs2. rewrite Forall_lookup in Hd2.
    rewrite !length_app, length_take, length_drop.
    rewrite (Hs2 _ _ Hs), (Hd2 _ _ Hd). lia.
Qed.

(** After [dst[:, lo:hi] = src], columns in the range come from [src],
    the others are those of [dst]. *)
Lemma get_setitem_cols lo hi src dst r i j :
  wf src → wf dst → lo ≤ hi → hi ≤ shape1 dst →
  setitem_cols (lo, hi) src dst = Some r →
  get r i j = if decide (lo ≤ j < hi) then get src i (j - lo)
              else get dst i j.
Proof.
  intros Hs Hd Hlo Hhi Hr. unfold setitem_cols in Hr.
  case_decide as Hsh; [|done]. destruct Hsh as [Hsh0 Hsh1].
  injection Hr as <-. unfold get. simpl. rewrite lookup_zip_with.
  destruct (data dst !! i) as [d|] eqn:Hdi; simpl.
  2:{ case_decide; [|done].
      destruct Hd as [Hd _], Hs as [Hs _].
      apply lookup_ge_None in Hdi. rewrite lookup_ge_None_2; [done|lia]. }
  pose proof (wf_row _ _ _ Hd Hdi) as Hdl.
  destruct (data src !! i) as [s|] eqn:Hsi; simpl.
  2:{ destruct Hd as [Hd _], Hs as [Hs _].
      apply lookup_ge_None in Hsi. apply lookup_lt_Some in Hdi. lia. }
  pose proof (wf_row _ _ _ Hs Hsi) as Hsl.
  case_decide as Hj.
  - rewrite lookup_app_r by (rewrite length_take; lia).
    rewrite length_take, lookup_app_l by lia. f_equal. lia.
  - destruct (decide (j < lo)).
    + rewrite lookup_app_l by (rewrite length_take; lia).
      by rewrite lookup_take_lt.
    + rewrite lookup_app_r by (rewrite length_take; lia).
      rewrite length_take.
      rewrite lookup_app_r by lia. rewrite lookup_drop. f_equal. lia.
Qed.
End SliceLemmas.

(** ** The negative sampler and the arc inputs *)

Section ForwardLemmas.
Context `{Model}.
Implicit Types (input_ids neg_ids : tensor Z) (draw : nat → nat → logits → Z).

Lemma wf_sample draw (lm_logits : tensor logits) :
  wf lm_logits → wf (sample draw lm_logits).
Proof.
  intros [Hlen Hall]. split; simpl.
  - by rewrite length_imap.
  - rewrite Forall_lookup. intros i r. rewrite list_lookup_imap.
    destruct (data lm_logits !! i) as [r0|] eqn:Hr0; simpl; [|done].
    intros [= <-]. rewrite length_imap.
    rewrite Forall_lookup in Hall. eauto.
Qed.

Lemma get_sample draw (lm_logits : tensor logits) b t :
  get (sample draw lm_logits) b t = draw b t <$> get lm_logits b t.
Proof.
  unfold get, sample. simpl. rewrite list_lookup_imap.
  destruct (data lm_logits !! b) as [r|]; simpl; [|done].
  by rewrite list_lookup_imap.
Qed.

(** Without debug the negatives are the draw. *)
Lemma negative_samples_drawn draw input_ids (lm_logits : tensor logits) :
  negative_samples draw input_ids lm_logits false
  = Some (sample draw lm_logits).
Proof. done. Qed.

(** With debug the negatives are the input shifted left by one position;
    the last column keeps the input's last token. *)
Lemma negative_samples_debug draw input_ids (lm_logits : tensor logits) :
  wf input_ids →
  ∃ neg_ids,
    negative_samples draw input_ids lm_logits true = Some neg_ids
    ∧ wf neg_ids
    ∧ shape0 neg_ids = shape0 input_ids ∧ shape1 neg_ids = shape1 input_ids
    ∧ ∀ b t, get neg_ids b t
             = if decide (t + 1 < shape1 input_ids) then get input_ids b (t + 1)
               else get input_ids b t.
Proof.
  intros Hwf. unfold negative_samples, clone.
  rewrite py_slice_to_m1, py_slice_from_1.
  set (L := shape1 input_ids).
  set (src := slice_cols (Nat.min 1 L, L) input_ids).
  assert (wf src) as Hsrc by (apply wf_slice_cols; [done|unfold L; lia]).
  destruct (setitem_cols_is_Some 0 (L - 1) src input_ids)
    as (neg & Hneg & Hn0 & Hn1 & _);
    [done|unfold src, slice_cols; cbn [shape1]; lia|].
  exists neg. split; [done|].
  split; [apply (wf_setitem_cols 0 (L - 1) src input_ids neg);
          [done|done|lia|unfold L; lia|done]|].
  split; [done|]. split; [done|].
  intros b t.
  rewrite (get_setitem_cols 0 (L - 1) src input_ids neg)
    by (done || unfold L; lia).
  destruct (decide (t + 1 < L)) as [Ht|Ht].
  - rewrite decide_True by lia. unfold src.
    rewrite get_slice_cols by lia. f_equal. lia.
  - rewrite decide_False by lia. done.
Qed.

(** The arc inputs: the first input token, then the negatives shifted right
    by one position. *)
Lemma arc_inputs_spec input_ids neg_ids :
  wf input_ids → wf neg_ids →
  shape0 neg_ids = shape0 input_ids → shape1 neg_ids = shape1 input_ids →
  ∃ arc_ids,
    arc_inputs input_ids neg_ids = Some arc_ids
    ∧ wf arc_ids
    ∧ shape0 arc_ids = shape0 input_ids ∧ shape1 arc_ids = shape1 input_ids
    ∧ ∀ b t, b < shape0 input_ids → t < shape1 input_ids →
        get arc_ids b t = if decide (t = 0) then get input_ids b 0
                          else get neg_ids b (t - 1).
Proof.
  intros Hwi Hwn Hs0 Hs1. unfold arc_inputs.
  rewrite py_slice_to_1, py_slice_to_m1, Hs1.
  set (L := shape1 input_ids).
  set (first := slice_cols (0, Nat.min 1 L) input_ids).
  set (rest := slice_cols (0, L - 1) neg_ids).
  assert (wf first) as Hwf by (apply wf_slice_cols; [done|unfold L; lia]).
  assert (wf rest) as Hwr by (apply wf_slice_cols; [done|lia]).
  destruct (cat1_is_Some first rest) as [arc Harc];
    [unfold first, rest, slice_cols; cbn [shape0]; lia|].
  destruct (cat1_shape _ _ _ Harc) as (Ha0 & Ha1 & _).
  unfold first, rest, slice_cols in Ha0, Ha1. cbn [shape0 shape1] in Ha0, Ha1.
  exists arc. split; [done|]. split; [eauto using wf_cat1|].
  split; [done|]. split; [unfold L in *; lia|].
  intros b t Hb Ht. fold L in Ht.
  assert (shape1 first = 1) as Hf1
    by (unfold first, slice_cols; cbn [shape1]; lia).
  destruct (decide (t = 0)) as [->|Ht0].
  - rewrite (get_cat1_l first rest arc) by (done || lia).
    unfold first. rewrite get_slice_cols by lia. done.
  - replace t with (shape1 first + (t - 1)) at 1 by lia.
    rewrite (get_cat1_r first rest arc) by done.
    unfold rest. rewrite get_slice_cols by lia. done.
Qed.

(** With debug the arc inputs are the input itself. *)
Lemma arc_inputs_debug draw input_ids (lm_logits : tensor logits) neg_ids :
  wf input_ids →
  negative_samples draw input_ids lm_logits true = Some neg_ids →
  arc_inputs input_ids neg_ids = Some input_ids.
Proof.
  intros Hwf Hneg.
  destruct (negative_samples_debug draw input_ids lm_logits Hwf)
    as (neg & Hneg' & Hwn & Hn0 & Hn1 & Hget).
  rewrite Hneg in Hneg'. injection Hneg' as <-.
  destruct (arc_inputs_spec input_ids neg_ids Hwf Hwn Hn0 Hn1)
    as (arc & Harc & Hwa & Ha0 & Ha1 & Hga).
  rewrite Harc. f_equal. apply tensor_ext; try done.
  intros b t Hb Ht. rewrite Hga by lia.
  case_decide as Ht0; [by subst|].
  rewrite Hget. rewrite decide_True by lia. f_equal. lia.
Qed.

(** The run up to the arc hidden states succeeds on every well-formed
    input, whatever its shape, and its tensors have the shapes of the
    input. *)
Lemma forward_states_spec draw input_ids debug :
  model_keeps_shape → wf input_ids →
  ∃ lm_logits loc,
    forward_states draw input_ids debug = Some (lm_logits, loc)
    ∧ negative_samples draw input_ids lm_logits debug = Some (l_neg_ids loc)
    ∧ arc_inputs input_ids (l_neg_ids loc) = Some (l_arc_ids loc)
    ∧ wf lm_logits
    ∧ shape0 lm_logits = shape0 input_ids
    ∧ shape1 lm_logits = shape1 input_ids
    ∧ wf (l_neg_ids loc)
    ∧ shape0 (l_neg_ids loc) = shape0 input_ids
    ∧ shape1 (l_neg_ids loc) = shape1 input_ids
    ∧ wf (l_arc_states loc)
    ∧ shape0 (l_arc_states loc) = shape0 input_ids
    ∧ shape1 (l_arc_states loc) = 2 * shape1 input_ids.
Proof.
  intros Hm Hwf. unfold forward_states.
  destruct (Hm input_ids None None DynamicCache Hwf) as (Hwo & Ho0 & Ho1).
  destruct (model input_ids None None DynamicCache) as [out kv].
  cbn [fst] in Hwo, Ho0, Ho1.
  set (lm := tmap log_softmax (tmap lm_head out)).
  assert (wf lm) as Hwlm by (unfold lm; auto using wf_tmap).
  assert (∃ neg, negative_samples draw input_ids lm debug = Some neg
                 ∧ wf neg ∧ shape0 neg = shape0 input_ids
                 ∧ shape1 neg = shape1 input_ids)
    as (neg & Hneg & Hwn & Hn0 & Hn1).
  { destruct debug.
    - destruct (negative_samples_debug draw input_ids lm Hwf)
        as (neg & ? & ? & ? & ? & _). eauto.
    - exists (sample draw lm). split; [done|].
      split; [by apply wf_sample|]. done. }
  rewrite Hneg. cbn [mbind option_bind].
  destruct (arc_inputs_spec input_ids neg Hwf Hwn Hn0 Hn1)
    as (arc & Harc & Hwa & Ha0 & Ha1 & _).
  rewrite Harc. cbn [mbind option_bind].
  destruct (cached_mask_is_Some input_ids) as (mask & Hmask).
  rewrite Hmask. cbn [mbind option_bind].
  destruct (Hm arc (Some mask) (Some (_get_arc_position_ids input_ids true))
              kv Hwa) as (Hwao & Hao0 & Hao1).
  destruct (model arc (Some mask) _ kv) as [arc_out kv'].
  cbn [fst] in Hwao, Hao0, Hao1.
  destruct (cat1_is_Some out arc_out) as [states Hst]; [lia|].
  rewrite Hst. cbn [mbind option_bind].
  destruct (cat1_shape _ _ _ Hst) as (Hs0 & Hs1 & _).
  eexists _, _. split; [done|]. cbn [l_neg_ids l_arc_ids l_arc_states].
  split; [done|]. split; [done|]. split; [done|].
  split; [exact Ho0|]. split; [exact Ho1|].
  split; [done|]. split; [done|]. split; [done|].
  split; [by apply (wf_cat1 out arc_out)|].
  split; lia.
Qed.
End ForwardLemmas.

(** ** Scalar assignments and masked fill *)

Section FillLemmas.
Context {A : Type}.
Implicit Types (t : tensor A) (mask : tensor bool).

Lemma wf_fill_cols lo hi (v : A) t :
  wf t → lo ≤ hi → hi ≤ shape1 t → wf (fill_cols (lo, hi) v t).
Proof.
  intros [Hlen Hall] Hlo Hhi. split; simpl.
  - by rewrite length_map.
  - apply Forall_fmap. eapply Forall_impl; [exact Hall|].
    intros r Hr. simpl in *.
    rewrite !length_app, length_take, length_replicate, length_drop. lia.
Qed.

Lemma get_fill_cols lo hi (v : A) t i j :
  wf t → lo ≤ hi → hi ≤ shape1 t → i < shape0 t →
  get (fill_cols (lo, hi) v t) i j
  = if decide (lo ≤ j < hi) then Some v else get t i j.
Proof.
  intros Hwf Hlo Hhi Hi. destruct (wf_has_row t i Hwf Hi) as [r Hr].
  pose proof (wf_row t i r Hwf Hr) as Hlr.
  unfold get, fill_cols. simpl. rewrite list_lookup_fmap, Hr. simpl.
  case_decide as Hj.
  - rewrite lookup_app_r by (rewrite length_take; lia).
    rewrite length_take, lookup_app_l by (rewrite length_replicate; lia).
    apply lookup_replicate_2. lia.
  - destruct (decide (j < lo)).
    + rewrite lookup_app_l by (rewrite length_take; lia).
      by rewrite lookup_take_lt.
    + rewrite lookup_app_r by (rewrite length_take; lia).
      rewrite length_take.
      rewrite lookup_app_r by (rewrite length_replicate; lia).
      rewrite length_replicate, lookup_drop. f_equal. lia.
Qed.

Lemma fill_col_in (k : nat) (v : A) t :
  k < shape1 t →
  fill_col (Z.of_nat k) v t
  = Some (Tensor (shape0 t) (shape1 t) (map (λ d, <[k := v]> d) (data t))).
Proof. intros Hk. unfold fill_col. by rewrite py_index_in. Qed.

Lemma fill_col_out (k : nat) (v : A) t :
  shape1 t ≤ k → fill_col (Z.of_nat k) v t = None.
Proof. intros Hk. unfold fill_col. by rewrite py_index_out. Qed.

Lemma wf_fill_col (k : nat) (v : A) t r :
  wf t → fill_col (Z.of_nat k) v t = Some r →
  wf r ∧ shape0 r = shape0 t ∧ shape1 r = shape1 t.
Proof.
  intros [Hlen Hall] Hr. destruct (decide (k < shape1 t)) as [Hk|Hk].
  - rewrite fill_col_in in Hr by done. injection Hr as <-.
    split; [|done]. split; simpl.
    + by rewrite length_map.
    + apply Forall_fmap. eapply Forall_impl; [exact Hall|].
      intros d Hd. simpl in *. by rewrite length_insert.
  - rewrite fill_col_out in Hr by lia. done.
Qed.

Lemma get_fill_col (k : nat) (v : A) t r i j :
  wf t → fill_col (Z.of_nat k) v t = Some r → i < shape0 t →
  get r i j = if decide (j = k) then Some v else get t i j.
Proof.
  intros Hwf Hr Hi. destruct (decide (k < shape1 t)) as [Hk|Hk].
  2:{ rewrite fill_col_out in Hr by lia. done. }
  rewrite fill_col_in in Hr by done. injection Hr as <-.
  destruct (wf_has_row t i Hwf Hi) as [d Hd].
  pose proof (wf_row t i d Hwf Hd) as Hld.
  unfold get. simpl. rewrite list_lookup_fmap, Hd. simpl.
  case_decide as Hj.
  - subst j. apply list_lookup_insert_eq. lia.
  - by apply list_lookup_insert_ne.
Qed.

Lemma masked_fill_is_Some t mask (v : A) :
  shape0 mask = shape0 t → shape1 mask = shape1 t →
  ∃ r, masked_fill t mask v = Some r
       ∧ shape0 r = shape0 t ∧ shape1 r = shape1 t.
Proof.
  intros H0 H1. unfold masked_fill. rewrite decide_True by done. eauto.
Qed.

Lemma wf_masked_fill t mask (v : A) r :
  wf t → wf mask → masked_fill t mask v = Some r → wf r.
Proof.
  intros [Ht1 Ht2] [Hm1 Hm2] Hr. unfold masked_fill in Hr.
  case_decide as Hsh; [|done]. destruct Hsh as [Hsh0 Hsh1].
  injection Hr as <-. split; simpl.
  - rewrite length_zip_with. lia.
  - rewrite Forall_lookup. intros i x Hx.
    apply lookup_zip_with_Some in Hx as (d & m & -> & Hd & Hm).
    rewrite Forall_lookup in Ht2. rewrite Forall_lookup in Hm2.
    rewrite length_zip_with, (Ht2 _ _ Hd), (Hm2 _ _ Hm). lia.
Qed.

Lemma get_masked_fill t mask (v : A) r i j x (m : bool) :
  masked_fill t mask v = Some r →
  get t i j = Some x → get mask i j = Some m →
  get r i j = Some (if m then v else x).
Proof.
  intros Hr Hx Hm. unfold masked_fill in Hr.
  case_decide as Hsh; [|done]. injection Hr as <-.
  unfold get in *. simpl. rewrite lookup_zip_with.
  destruct (data t !! i) as [d|]; simpl in *; [|done].
  destruct (data mask !! i) as [dm|]; simpl in *; [|done].
  by rewrite lookup_zip_with, Hx, Hm.
Qed.
End FillLemmas.

(** ** The arc targets *)

(** The token of the doubled input, [cat([input_ids, input_ids], dim=1)],
    at column [p]. *)
Lemma get_doubled (input_ids doubled : tensor Z) b p :
  wf input_ids → cat1 input_ids input_ids = Some doubled →
  b < shape0 input_ids → p < 2 * shape1 input_ids →
  get doubled b p
  = get input_ids b (if decide (p < shape1 input_ids) then p
                     else p - shape1 input_ids).
Proof.
  intros Hwf Hd Hb Hp. case_decide as Hlt.
  - by apply (get_cat1_l input_ids input_ids doubled).
  - replace p with (shape1 input_ids + (p - shape1 input_ids)) at 1 by lia.
    by apply (get_cat1_r input_ids input_ids doubled).
Qed.

(** An empty sequence makes the assignment [arc_targets[:, 0] = -1] raise:
    column 0 does not exist. *)
Lemma arc_target_tensor_empty (input_ids : tensor Z) pad_token_id :
  shape1 input_ids = 0 → arc_target_tensor input_ids pad_token_id = None.
Proof.
  intros HL. unfold arc_target_tensor. rewrite HL.
  by rewrite (fill_col_out 0) by (simpl; lia).
Qed.

Lemma arc_target_tensor_spec (input_ids : tensor Z) pad_token_id :
  wf input_ids → 0 < shape1 input_ids →
  ∃ doubled arc_targets,
    cat1 input_ids input_ids = Some doubled
    ∧ arc_target_tensor input_ids pad_token_id = Some arc_targets
    ∧ wf arc_targets
    ∧ shape0 arc_targets = shape0 input_ids
    ∧ shape1 arc_targets = 2 * shape1 input_ids
    ∧ ∀ b p, b < shape0 input_ids → p < 2 * shape1 input_ids →
        ∃ x, get doubled b p = Some x
             ∧ get arc_targets b p
               = Some (arc_label (shape1 input_ids) pad_token_id p x).
Proof.
  intros Hwf HL. unfold arc_target_tensor.
  set (B := shape0 input_ids). set (L := shape1 input_ids) in *.
  set (t0 := full B (2 * L) 1%Z).
  assert (wf t0) as Hw0 by apply wf_full.
  change (shape1 t0) with (2 * L). rewrite py_slice_to_half.
  set (t1 := fill_cols (0, L) 0%Z t0).
  assert (wf t1) as Hw1 by (apply wf_fill_cols; [done|lia|simpl; lia]).
  change (fill_col 0%Z (-1)%Z t1) with (fill_col (Z.of_nat 0) (-1)%Z t1).
  rewrite (fill_col_in 0 (-1)%Z t1) by (simpl; lia). cbn [mbind option_bind].
  set (t2 := Tensor _ _ _).
  assert (fill_col (Z.of_nat 0) (-1)%Z t1 = Some t2) as Ht2
    by (rewrite (fill_col_in 0) by (simpl; lia); done).
  destruct (wf_fill_col 0 _ t1 t2 Hw1 Ht2) as (Hw2 & H20 & H21).
  rewrite (fill_col_in L) by (simpl; lia). cbn [mbind option_bind].
  set (t3 := Tensor _ _ _).
  assert (fill_col (Z.of_nat L) (-1)%Z t2 = Some t3) as Ht3
    by (rewrite (fill_col_in L) by (simpl; lia); done).
  destruct (wf_fill_col L _ t2 t3 Hw2 Ht3) as (Hw3 & H30 & H31).
  destruct (cat1_is_Some input_ids input_ids eq_refl) as [doubled Hd].
  rewrite Hd. cbn [mbind option_bind].
  destruct (cat1_shape _ _ _ Hd) as (Hd0 & Hd1 & _).
  assert (wf doubled) as Hwd by eauto using wf_cat1.
  set (mask := tmap (λ x, (x =? pad_token_id)%Z) doubled).
  assert (wf mask) as Hwm by apply wf_tmap, Hwd.
  destruct (masked_fill_is_Some t3 mask (-1)%Z) as (tg & Htg & Hg0 & Hg1);
    [simpl in *; unfold B; lia | simpl in *; unfold L; lia |].
  exists doubled, tg. split; [done|]. split; [done|].
  split; [eauto using wf_masked_fill|].
  split; [simpl in *; lia|]. split; [simpl in *; lia|].
  intros b p Hb Hp.
  destruct (get_is_Some doubled b p Hwd) as [x Hx];
    [fold B; lia | fold L; lia |].
  exists x. split; [done|].
  assert (get t3 b p = Some (if decide (p = 0 ∨ p = L) then (-1)%Z
                             else if decide (p < L) then 0%Z else 1%Z))
    as Hg3.
  { rewrite (get_fill_col L _ t2 t3) by (done || simpl in *; lia).
    rewrite (get_fill_col 0 _ t1 t2) by (done || simpl in *; lia).
    unfold t1. rewrite get_fill_cols by (done || simpl; lia).
    unfold t0. rewrite get_full by lia.
    repeat case_decide; done || lia. }
  rewrite (get_masked_fill t3 mask _ tg b p _ (x =? pad_token_id)%Z Htg Hg3)
    by (unfold mask; rewrite get_tmap, Hx; done).
  f_equal. unfold arc_label.
  destruct (Z.eqb_spec x pad_token_id);
    repeat case_decide; done || lia || tauto.
Qed.

(** ** The arc predictions *)

(** Selecting the only entry of a last dim of size 1. *)
Lemma select_last_singleton {A B} (f : A → B) (t : tensor A) :
  select_last 0 (tmap (λ h, [f h]) t) = Some (tmap f t).
Proof.
  unfold select_last, tmap. cbn [data shape0 shape1].
  assert (mapM (mapM (λ v : list B, v !! 0)) (map (map (λ h, [f h])) (data t))
          = Some (map (map f) (data t))) as ->; [|done].
  apply mapM_Some, Forall2_fmap, Forall_Forall2_diag, Forall_forall.
  intros r _. apply mapM_Some, Forall2_fmap, Forall_Forall2_diag, Forall_forall.
  done.
Qed.

Lemma stack_last_spec {A} (a b : tensor A) :
  wf a → wf b → shape0 a = shape0 b → shape1 a = shape1 b →
  ∃ r, stack_last a b = Some r
       ∧ wf r ∧ shape0 r = shape0 a ∧ shape1 r = shape1 a
       ∧ ∀ i j, get r i j
                = x ← get a i j; y ← get b i j; Some [x; y].
Proof.
  intros [Ha1 Ha2] [Hb1 Hb2] H0 H1. unfold stack_last.
  rewrite decide_True by done. eexists. split; [done|].
  split; [|split; [done|split; [done|]]].
  - split; simpl.
    + rewrite length_zip_with. lia.
    + rewrite Forall_lookup. intros i x Hx.
      apply lookup_zip_with_Some in Hx as (ra & rb & -> & Hra & Hrb).
      rewrite Forall_lookup in Ha2. rewrite Forall_lookup in Hb2.
      rewrite length_zip_with, (Ha2 _ _ Hra), (Hb2 _ _ Hrb). lia.
  - intros i j. unfold get. simpl. rewrite lookup_zip_with.
    destruct (data a !! i) as [ra|] eqn:Hra; simpl.
    2:{ done. }
    destruct (data b !! i) as [rb|] eqn:Hrb; simpl.
    2:{ apply lookup_lt_Some in Hra. apply lookup_ge_None in Hrb. lia. }
    rewrite lookup_zip_with.
    destruct (ra !! j) as [x|] eqn:Hx; simpl; [|done].
    destruct (rb !! j) as [y|] eqn:Hy; simpl; done.
Qed.

(** ** Float arithmetic of the scores *)

Lemma binary_round_aux_opp prec emax s m e l :
  SFopp (binary_round_aux prec emax s m e l)
  = binary_round_aux prec emax (negb s) m e l.
Proof.
  unfold binary_round_aux.
  destruct (shr_fexp prec emax m e l) as [mrs' e'].
  destruct (shr_fexp prec emax _ e' loc_Exact) as [mrs'' e''].
  destruct (shr_m mrs'') as [|p|p]; simpl; [done| |done].
  by destruct (e'' <=? emax - prec)%Z.
Qed.

(** Negation commutes with division: rounding to nearest is symmetric. *)
Lemma SFdiv_opp_l prec emax x y :
  SFdiv prec emax (SFopp x) y = SFopp (SFdiv prec emax x y).
Proof.
  destruct x as [sx|sx| |sx mx ex], y as [sy|sy| |sy my ey]; simpl;
    try done; try (by destruct sx, sy).
  destruct (SFdiv_core_binary prec emax (Z.pos mx) ex (Z.pos my) ey)
    as [[mz ez] lz].
  rewrite binary_round_aux_opp. by destruct sx, sy.
Qed.

(** A float plus its negation: +0 when it is finite, NaN otherwise. *)
Lemma SFadd_opp_l prec emax x :
  SFadd prec emax (SFopp x) x
  = match x with
    | S754_zero _ | S754_finite _ _ _ => S754_zero false
    | S754_infinity _ | S754_nan => S754_nan
    end.
Proof.
  destruct x as [s|s| |s m e]; simpl; try (by destruct s); try done.
  rewrite Z.min_id. unfold shl_align. rewrite Z.sub_diag. simpl.
  assert (cond_Zopp (negb s) (Z.pos m) + cond_Zopp s (Z.pos m) = 0)%Z as ->
    by (destruct s; simpl; lia).
  done.
Qed.

Section PredictionLemmas.
Context `{Model}.

(** The two class scores of one position, from its hidden state. *)
Lemma arc_predictions_spec (arc_states : tensor hidden) :
  wf arc_states →
  ∃ arc_preds,
    arc_predictions arc_states = Some arc_preds
    ∧ wf arc_preds
    ∧ shape0 arc_preds = shape0 arc_states
    ∧ shape1 arc_preds = shape1 arc_states
    ∧ ∀ b p, get arc_preds b p
             = (λ h, [fhalf (fneg (arc_head h)); fhalf (arc_head h)])
                 <$> get arc_states b p.
Proof.
  intros Hwf. unfold arc_predictions.
  rewrite select_last_singleton. cbn [mbind option_bind].
  set (s := tmap arc_head arc_states).
  assert (wf s) as Hws by by apply wf_tmap.
  destruct (stack_last_spec (tmap fhalf (tmap fneg s)) (tmap fhalf s))
    as (r & Hr & Hwr & Hr0 & Hr1 & Hget); auto using wf_tmap.
  exists r. split; [done|]. split; [done|]. split; [done|]. split; [done|].
  intros b p. rewrite Hget, !get_tmap. unfold s. rewrite get_tmap.
  by destruct (get arc_states b p).
Qed.
End PredictionLemmas.

(** ** The whole forward pass *)

Lemma toy_keeps_shape : @model_keeps_shape toy_model.
Proof.
  intros ids mask pos kv Hwf. simpl. split; [|done]. by apply wf_tmap.
Qed.

Lemma wf_ids_2x3 : wf ids_2x3.
Proof. split; [done|]. repeat constructor. Qed.

Lemma wf_ids_5670 : wf ids_5670.
Proof. split; [done|]. repeat constructor. Qed.

(** The end-to-end example of the testable properties: one row
    [5, 6, 7, pad] with pad id 0. Columns 0 and 4 are the boundaries,
    columns 3 and 7 hold the pad. *)
Example forward_5670_targets :
  (λ r, r.2) <$> @forward toy_model toy_draw ids_5670 0%Z false
  = Some (Tensor 1 8 [[-1; 0; 0; -1; -1; 1; 1; -1]]%Z).
Proof. vm_compute. reflexivity. Qed.

(** With debug the negatives are the input shifted left and the arc inputs
    are the input. *)
Example forward_states_2x3_debug :
  (λ r, (l_neg_ids r.2, l_arc_ids r.2))
    <$> @forward_states toy_model toy_draw ids_2x3 true
  = Some (Tensor 2 3 [[6; 7; 7]; [16; 9; 9]]%Z, ids_2x3).
Proof. vm_compute. reflexivity. Qed.

(** The cached mask for three positions. *)
Example arc_mask_cached_3 :
  _get_arc_mask ids_2x3 true
  = Some (Tensor 3 6 [[true; true; true; false; true; true];
                      [false; true; true; true; false; true];
                      [false; false; true; true; true; false]]).
Proof. vm_compute. reflexivity. Qed.

(** An empty sequence: the call raises. *)
Example forward_empty_raises :
  @forward toy_model toy_draw (Tensor 2 0 [[]; []]) 0%Z false = None.
Proof. vm_compute. reflexivity. Qed.

Section ForwardFacts.
Context `{Model}.
Implicit Types (input_ids : tensor Z) (draw : nat → nat → logits → Z).

(** What a returned triple was computed from. *)
Lemma forward_inv draw input_ids pad_token_id debug lm_logits arc_preds tg :
  forward draw input_ids pad_token_id debug = Some (lm_logits, arc_preds, tg) →
  ∃ loc,
    forward_states draw input_ids debug = Some (lm_logits, loc)
    ∧ arc_predictions (l_arc_states loc) = Some arc_preds
    ∧ arc_target_tensor input_ids pad_token_id = Some tg.
Proof.
  unfold forward.
  destruct (forward_states draw input_ids debug) as [[lm loc]|];
    cbn [mbind option_bind]; [|done].
  destruct (arc_predictions (l_arc_states loc)) as [preds|] eqn:Hp;
    cbn [mbind option_bind]; [|done].
  destruct (arc_target_tensor input_ids pad_token_id) as [tg'|] eqn:Ht;
    cbn [mbind option_bind]; [|done].
  intros [= <- <- <-]. exists loc. by rewrite Hp.
Qed.

(** [forward] raises on an empty sequence. *)
Lemma forward_empty draw input_ids pad_token_id debug :
  shape1 input_ids = 0 → forward draw input_ids pad_token_id debug = None.
Proof.
  intros HL.
  destruct (forward draw input_ids pad_token_id debug) as [[[lm preds] tg]|]
    eqn:Hf; [|done].
  apply forward_inv in Hf as (loc & _ & _ & Htg).
  by rewrite arc_target_tensor_empty in Htg.
Qed.

Lemma forward_nonempty draw input_ids pad_token_id debug r :
  forward draw input_ids pad_token_id debug = Some r → 0 < shape1 input_ids.
Proof.
  intros Hf. destruct (decide (shape1 input_ids = 0)) as [HL|]; [|lia].
  by rewrite forward_empty in Hf.
Qed.

(** [forward] returns on every well-formed input with at least one
    column. *)
Lemma forward_is_Some draw input_ids pad_token_id debug :
  model_keeps_shape → wf input_ids → 0 < shape1 input_ids →
  ∃ lm_logits loc arc_preds tg,
    forward_states draw input_ids debug = Some (lm_logits, loc)
    ∧ arc_predictions (l_arc_states loc) = Some arc_preds
    ∧ arc_target_tensor input_ids pad_token_id = Some tg
    ∧ forward draw input_ids pad_token_id debug
      = Some (lm_logits, arc_preds, tg).
Proof.
  intros Hm Hwf HL.
  destruct (forward_states_spec draw input_ids debug Hm Hwf)
    as (lm & loc & Hfs & _ & _ & _ & _ & _ & _ & _ & _ & Hws & _).
  destruct (arc_predictions_spec (l_arc_states loc) Hws) as (preds & Hp & _).
  destruct (arc_target_tensor_spec input_ids pad_token_id Hwf HL)
    as (_ & tg & _ & Htg & _).
  exists lm, loc, preds, tg. unfold forward.
  rewrite Hfs. cbn [mbind option_bind]. rewrite Hp. cbn [mbind option_bind].
  by rewrite Htg.
Qed.
End ForwardFacts.

(** C3: for every input of shape [batch, L], the arc inputs built by
    forward have that same shape, their first column is the input's first
    column, and every column t with 1 <= t < L holds the negative sampler's
    output at column t - 1. *)
Theorem arc_ids_shifted_negatives `{Model} draw (input_ids : tensor Z) debug :
  model_keeps_shape → wf input_ids →
  ∃ lm_logits loc,
    forward_states draw input_ids debug = Some (lm_logits, loc)
    ∧ negative_samples draw input_ids lm_logits debug = Some (l_neg_ids loc)
    ∧ wf (l_arc_ids loc)
    ∧ shape0 (l_arc_ids loc) = shape0 input_ids
    ∧ shape1 (l_arc_ids loc) = shape1 input_ids
    ∧ ∀ b, b < shape0 input_ids →
        (0 < shape1 input_ids →
         get (l_arc_ids loc) b 0 = get input_ids b 0)
        ∧ ∀ t, 1 ≤ t → t < shape1 input_ids →
            get (l_arc_ids loc) b t = get (l_neg_ids loc) b (t - 1).
Proof.
  intros Hm Hwf.
  destruct (forward_states_spec draw input_ids debug Hm Hwf)
    as (lm & loc & Hfs & Hneg & Harc & _ & _ & _ & Hwn & Hn0 & Hn1 & _).
  destruct (arc_inputs_spec input_ids (l_neg_ids loc) Hwf Hwn Hn0 Hn1)
    as (arc & Harc' & Hwa & Ha0 & Ha1 & Hget).
  rewrite Harc in Harc'. injection Harc' as <-.
  exists lm, loc. repeat (split; [done|]).
  intros b Hb. split.
  - intros HL. by rewrite Hget.
  - intros t Ht1 HtL. rewrite Hget by done. by rewrite decide_False by lia.
Qed.

Lemma arc_ids_shifted_negatives_witness :
  ∃ lm_logits loc,
    @forward_states toy_model toy_draw ids_2x3 false = Some (lm_logits, loc)
    ∧ get (l_arc_ids loc) 1 0 = get ids_2x3 1 0
    ∧ get (l_arc_ids loc) 1 2 = get (l_neg_ids loc) 1 1.
Proof.
  destruct (@arc_ids_shifted_negatives toy_model toy_draw ids_2x3 false
              toy_keeps_shape wf_ids_2x3)
    as (lm & loc & Hfs & _ & _ & _ & _ & Hget).
  exists lm, loc. split; [exact Hfs|].
  destruct (Hget 1 ltac:(simpl; lia)) as [H0 Ht]. split.
  - apply H0. simpl. lia.
  - apply (Ht 2); simpl; lia.
Defined.

(** C8: with debug=True the negatives are fully determined by the input:
    column t holds the input's column t + 1 for every t < L - 1, whatever
    the draw, the backbone and the heads; so two calls on the same input
    have the same negatives. *)
Theorem debug_negatives_deterministic (M1 M2 : Model)
    (draw1 : nat → nat → @logits M1 → Z) (draw2 : nat → nat → @logits M2 → Z)
    (input_ids : tensor Z) :
  @model_keeps_shape M1 → @model_keeps_shape M2 → wf input_ids →
  ∃ lm1 loc1 lm2 loc2,
    @forward_states M1 draw1 input_ids true = Some (lm1, loc1)
    ∧ @forward_states M2 draw2 input_ids true = Some (lm2, loc2)
    ∧ l_neg_ids loc1 = l_neg_ids loc2
    ∧ ∀ b t, t + 1 < shape1 input_ids →
        get (l_neg_ids loc1) b t = get input_ids b (t + 1).
Proof.
  intros Hm1 Hm2 Hwf.
  destruct (@forward_states_spec M1 draw1 input_ids true Hm1 Hwf)
    as (lm1 & loc1 & Hfs1 & Hneg1 & _).
  destruct (@forward_states_spec M2 draw2 input_ids true Hm2 Hwf)
    as (lm2 & loc2 & Hfs2 & Hneg2 & _).
  destruct (@negative_samples_debug M1 draw1 input_ids lm1 Hwf)
    as (neg & Hneg & _ & _ & _ & Hget).
  exists lm1, loc1, lm2, loc2. split; [done|]. split; [done|].
  assert (l_neg_ids loc1 = neg) as -> by congruence.
  split.
  - change (@negative_samples M2 draw2 input_ids lm2 true)
      with (@negative_samples M1 draw1 input_ids lm1 true) in Hneg2.
    congruence.
  - intros b t Ht. rewrite Hget. by rewrite decide_True.
Qed.

Lemma debug_negatives_deterministic_witness :
  ∃ lm1 loc1 lm2 loc2,
    @forward_states toy_model toy_draw ids_2x3 true = Some (lm1, loc1)
    ∧ @forward_states toy_model (λ _ _ _, 0%Z) ids_2x3 true = Some (lm2, loc2)
    ∧ l_neg_ids loc1 = l_neg_ids loc2
    ∧ get (l_neg_ids loc1) 1 1 = get ids_2x3 1 2.
Proof.
  destruct (debug_negatives_deterministic toy_model toy_model toy_draw
              (λ _ _ _, 0%Z) ids_2x3 toy_keeps_shape toy_keeps_shape
              wf_ids_2x3)
    as (lm1 & loc1 & lm2 & loc2 & H1 & H2 & Heq & Hget).
  exists lm1, loc1, lm2, loc2.
  split; [exact H1|]. split; [exact H2|]. split; [exact Heq|].
  apply (Hget 1 1). simpl. lia.
Defined.

(** C10: with debug=True the arc inputs are the input itself, for every
    input: the first token followed by the left-shifted negatives without
    their last column gives the original sequence back. *)
Theorem debug_arc_ids_is_input `{Model} draw (input_ids : tensor Z) :
  model_keeps_shape → wf input_ids →
  ∃ lm_logits loc,
    forward_states draw input_ids true = Some (lm_logits, loc)
    ∧ l_arc_ids loc = input_ids.
Proof.
  intros Hm Hwf.
  destruct (forward_states_spec draw input_ids true Hm Hwf)
    as (lm & loc & Hfs & Hneg & Harc & _).
  exists lm, loc. split; [done|].
  rewrite (arc_inputs_debug draw input_ids lm _ Hwf Hneg) in Harc.
  congruence.
Qed.

Lemma debug_arc_ids_is_input_witness :
  ∃ lm_logits loc,
    @forward_states toy_model toy_draw ids_2x3 true = Some (lm_logits, loc)
    ∧ l_arc_ids loc = ids_2x3.
Proof.
  exact (@debug_arc_ids_is_input toy_model toy_draw ids_2x3
           toy_keeps_shape wf_ids_2x3).
Defined.

(** The targets of a returned triple, entry by entry. *)
Lemma forward_targets `{Model} draw (input_ids : tensor Z) pad_token_id debug
    lm_logits arc_preds tg :
  wf input_ids →
  forward draw input_ids pad_token_id debug = Some (lm_logits, arc_preds, tg) →
  0 < shape1 input_ids
  ∧ wf tg
  ∧ shape0 tg = shape0 input_ids ∧ shape1 tg = 2 * shape1 input_ids
  ∧ ∃ doubled,
      cat1 input_ids input_ids = Some doubled
      ∧ ∀ b p, b < shape0 input_ids → p < 2 * shape1 input_ids →
          ∃ x, get doubled b p = Some x
               ∧ get input_ids b (if decide (p < shape1 input_ids) then p
                                  else p - shape1 input_ids) = Some x
               ∧ get tg b p
                 = Some (arc_label (shape1 input_ids) pad_token_id p x).
Proof.
  intros Hwf Hf. pose proof (forward_nonempty _ _ _ _ _ Hf) as HL.
  apply forward_inv in Hf as (loc & _ & _ & Htg).
  destruct (arc_target_tensor_spec input_ids pad_token_id Hwf HL)
    as (doubled & tg' & Hd & Htg' & Hw & H0 & H1 & Hget).
  rewrite Htg in Htg'. injection Htg' as <-.
  repeat (split; [done|]). exists doubled. split; [done|].
  intros b p Hb Hp. destruct (Hget b p Hb Hp) as (x & Hx & Hg).
  exists x. split; [done|]. split; [|done].
  by rewrite <- (get_doubled input_ids doubled b p).
Qed.

(** C4: the arc targets label every column of the first half 0 (real) and
    every column of the second half 1 (fake), except where the ignore label
    -1 was set; in a row without pad token only columns 0 and L hold -1.
    The call returns for every L >= 1. *)
Theorem arc_targets_labels `{Model} draw (input_ids : tensor Z) pad_token_id
    debug :
  model_keeps_shape → wf input_ids →
  (0 < shape1 input_ids → is_Some (forward draw input_ids pad_token_id debug))
  ∧ ∀ lm_logits arc_preds tg,
      forward draw input_ids pad_token_id debug
      = Some (lm_logits, arc_preds, tg) →
      ∀ b p, b < shape0 input_ids → p < 2 * shape1 input_ids →
        (get tg b p = Some (-1)%Z
         ∨ get tg b p = Some (if decide (p < shape1 input_ids) then 0%Z
                              else 1%Z))
        ∧ ((∀ t, get input_ids b t ≠ Some pad_token_id) →
           get tg b p
           = Some (if decide (p = 0 ∨ p = shape1 input_ids) then (-1)%Z
                   else if decide (p < shape1 input_ids) then 0%Z else 1%Z)).
Proof.
  intros Hm Hwf. split.
  - intros HL.
    destruct (forward_is_Some draw input_ids pad_token_id debug Hm Hwf HL)
      as (lm & loc & preds & tg & _ & _ & _ & Hf).
    rewrite Hf. eauto.
  - intros lm preds tg Hf b p Hb Hp.
    destruct (forward_targets _ _ _ _ _ _ _ Hwf Hf)
      as (HL & _ & _ & _ & doubled & _ & Hget).
    destruct (Hget b p Hb Hp) as (x & _ & Hx & ->). unfold arc_label. split.
    + repeat case_decide; auto.
    + intros Hnopad.
      assert (x ≠ pad_token_id) as Hne by (intros ->; by eapply Hnopad).
      f_equal. repeat case_decide; done || tauto.
Qed.

Lemma arc_targets_labels_witness :
  is_Some (@forward toy_model toy_draw ids_2x3 0 false)
  ∧ ∀ lm_logits arc_preds tg,
      @forward toy_model toy_draw ids_2x3 0 false
      = Some (lm_logits, arc_preds, tg) →
      get tg 1 0 = Some (-1)%Z ∧ get tg 1 2 = Some 0%Z
      ∧ get tg 1 3 = Some (-1)%Z ∧ get tg 1 5 = Some 1%Z.
Proof.
  destruct (@arc_targets_labels toy_model toy_draw ids_2x3 0 false
              toy_keeps_shape wf_ids_2x3) as [Hsome Hlab].
  split; [apply Hsome; simpl; lia|].
  intros lm preds tg Hf.
  assert (∀ t, get ids_2x3 1 t ≠ Some 0%Z) as Hnopad.
  { intros [|[|[|t]]]; done. }
  pose proof (λ p Hp, proj2 (Hlab lm preds tg Hf 1 p ltac:(simpl; lia) Hp)
                        Hnopad) as Hp.
  repeat split.
  - apply (Hp 0). simpl. lia.
  - apply (Hp 2). simpl. lia.
  - apply (Hp 3). simpl. lia.
  - apply (Hp 5). simpl. lia.
Defined.

(** C5: in every returned target tensor, columns 0 and L hold -1 in every
    row, whatever the tokens, and so does every column where the doubled
    original input holds the pad id. The targets are computed from the
    original input alone: they are the same for every draw of the
    negatives and with or without debug. *)
Theorem arc_targets_ignore `{Model} draw (input_ids : tensor Z) pad_token_id
    debug lm_logits arc_preds tg :
  wf input_ids →
  forward draw input_ids pad_token_id debug = Some (lm_logits, arc_preds, tg) →
  (∀ b, b < shape0 input_ids →
     get tg b 0 = Some (-1)%Z ∧ get tg b (shape1 input_ids) = Some (-1)%Z)
  ∧ (∃ doubled,
       cat1 input_ids input_ids = Some doubled
       ∧ ∀ b p, b < shape0 input_ids → p < 2 * shape1 input_ids →
           get doubled b p = Some pad_token_id → get tg b p = Some (-1)%Z)
  ∧ (∀ draw' debug' lm_logits' arc_preds' tg',
       forward draw' input_ids pad_token_id debug'
       = Some (lm_logits', arc_preds', tg') →
       tg' = tg).
Proof.
  intros Hwf Hf.
  destruct (forward_targets _ _ _ _ _ _ _ Hwf Hf)
    as (HL & _ & _ & _ & doubled & Hd & Hget).
  split; [|split].
  - intros b Hb. split.
    + destruct (Hget b 0 Hb ltac:(lia)) as (x & _ & _ & ->).
      unfold arc_label. by rewrite decide_True by auto.
    + destruct (Hget b (shape1 input_ids) Hb ltac:(lia)) as (x & _ & _ & ->).
      unfold arc_label. by rewrite decide_True by auto.
  - exists doubled. split; [done|]. intros b p Hb Hp Hpad.
    destruct (Hget b p Hb Hp) as (x & Hx & _ & ->).
    assert (x = pad_token_id) as -> by congruence.
    unfold arc_label. by rewrite decide_True by auto.
  - intros draw' debug' lm' preds' tg' Hf'.
    apply forward_inv in Hf as (_ & _ & _ & Htg).
    apply forward_inv in Hf' as (_ & _ & _ & Htg').
    congruence.
Qed.

Lemma arc_targets_ignore_witness :
  ∃ lm_logits arc_preds tg,
    @forward toy_model toy_draw ids_5670 0 false
    = Some (lm_logits, arc_preds, tg)
    ∧ get tg 0 0 = Some (-1)%Z ∧ get tg 0 4 = Some (-1)%Z.
Proof.
  destruct (@forward_is_Some toy_model toy_draw ids_5670 0%Z false
              toy_keeps_shape wf_ids_5670 ltac:(simpl; lia))
    as (lm & loc & preds & tg & _ & _ & _ & Hf).
  exists lm, preds, tg. split; [exact Hf|].
  destruct (@arc_targets_ignore toy_model toy_draw ids_5670 0%Z false
              lm preds tg wf_ids_5670 Hf) as (Hb & _).
  apply (Hb 0). simpl. lia.
Defined.

(** C6: for every input of shape [batch, L] on which forward returns, the
    arc predictions have shape [batch, 2L, 2] and the arc targets shape
    [batch, 2L], every target being -1, 0 or 1. The call returns for every
    L >= 1. *)
Theorem forward_output_shapes `{Model} draw (input_ids : tensor Z)
    pad_token_id debug :
  model_keeps_shape → wf input_ids →
  (0 < shape1 input_ids → is_Some (forward draw input_ids pad_token_id debug))
  ∧ ∀ lm_logits arc_preds tg,
      forward draw input_ids pad_token_id debug
      = Some (lm_logits, arc_preds, tg) →
      wf arc_preds
      ∧ shape0 arc_preds = shape0 input_ids
      ∧ shape1 arc_preds = 2 * shape1 input_ids
      ∧ (∀ b p v, get arc_preds b p = Some v → length v = 2)
      ∧ wf tg
      ∧ shape0 tg = shape0 input_ids
      ∧ shape1 tg = 2 * shape1 input_ids
      ∧ ∀ b p x, get tg b p = Some x → x = (-1)%Z ∨ x = 0%Z ∨ x = 1%Z.
Proof.
  intros Hm Hwf. split.
  - intros HL.
    destruct (forward_is_Some draw input_ids pad_token_id debug Hm Hwf HL)
      as (lm & loc & preds & tg & _ & _ & _ & Hf).
    rewrite Hf. eauto.
  - intros lm preds tg Hf.
    destruct (forward_targets _ _ _ _ _ _ _ Hwf Hf)
      as (HL & Hwt & Ht0 & Ht1 & doubled & _ & Hget).
    apply forward_inv in Hf as (loc & Hfs & Hp & _).
    destruct (forward_states_spec draw input_ids debug Hm Hwf)
      as (lm' & loc' & Hfs' & _ & _ & _ & _ & _ & _ & _ & _ & Hws & Hs0 & Hs1).
    rewrite Hfs in Hfs'. injection Hfs' as <- <-.
    destruct (arc_predictions_spec (l_arc_states loc) Hws)
      as (preds' & Hp' & Hwp & Hp0 & Hp1 & Hgp).
    rewrite Hp in Hp'. injection Hp' as <-.
    split; [done|]. split; [lia|]. split; [lia|]. split.
    { intros b p v. rewrite Hgp.
      destruct (get (l_arc_states loc) b p); simpl; [|done].
      by intros [= <-]. }
    split; [done|]. split; [done|]. split; [done|].
    intros b p x Hx.
    destruct (decide (b < shape0 input_ids)) as [Hb|Hb].
    2:{ rewrite get_rows_None in Hx by (done || lia). done. }
    destruct (decide (p < 2 * shape1 input_ids)) as [Hpp|Hpp].
    2:{ rewrite get_cols_None in Hx by (done || lia). done. }
    destruct (Hget b p Hb Hpp) as (y & _ & _ & Hy).
    rewrite Hy in Hx. injection Hx as <-. unfold arc_label.
    repeat case_decide; auto.
Qed.

Lemma forward_output_shapes_witness :
  ∃ lm_logits arc_preds tg,
    @forward toy_model toy_draw ids_2x3 0 false
    = Some (lm_logits, arc_preds, tg)
    ∧ shape0 arc_preds = 2 ∧ shape1 arc_preds = 6
    ∧ shape0 tg = 2 ∧ shape1 tg = 6.
Proof.
  destruct (@forward_output_shapes toy_model toy_draw ids_2x3 0%Z false
              toy_keeps_shape wf_ids_2x3) as [Hsome Hsh].
  destruct (Hsome ltac:(simpl; lia)) as [[[lm preds] tg] Hf].
  exists lm, preds, tg. split; [exact Hf|].
  destruct (Hsh lm preds tg Hf) as (_ & Hp0 & Hp1 & _ & _ & Ht0 & Ht1 & _).
  repeat split; [exact Hp0 | exact Hp1 | exact Ht0 | exact Ht1].
Defined.

(** C7, as the code has it: at every position of a returned prediction
    tensor the two class scores are [(-s)/2] and [s/2] for the head's
    output [s] there, and the first is the exact negation of the second.
    Their float sum is +0 when the scores are finite, and NaN when [s] is
    infinite or NaN. *)
Theorem arc_scores_signed_pair `{Model} draw (input_ids : tensor Z)
    pad_token_id debug lm_logits arc_preds tg :
  model_keeps_shape → wf input_ids →
  forward draw input_ids pad_token_id debug = Some (lm_logits, arc_preds, tg) →
  ∃ loc,
    forward_states draw input_ids debug = Some (lm_logits, loc)
    ∧ ∀ b p, b < shape0 input_ids → p < 2 * shape1 input_ids →
        ∃ h, get (l_arc_states loc) b p = Some h
             ∧ get arc_preds b p
               = Some [fhalf (fneg (arc_head h)); fhalf (arc_head h)]
             ∧ fhalf (fneg (arc_head h)) = fneg (fhalf (arc_head h))
             ∧ fadd (fhalf (fneg (arc_head h))) (fhalf (arc_head h))
               = if is_finite (fhalf (arc_head h)) then S754_zero false
                 else S754_nan.
Proof.
  intros Hm Hwf Hf. apply forward_inv in Hf as (loc & Hfs & Hp & _).
  exists loc. split; [done|]. intros b p Hb Hpp.
  destruct (forward_states_spec draw input_ids debug Hm Hwf)
    as (lm' & loc' & Hfs' & _ & _ & _ & _ & _ & _ & _ & _ & Hws & Hs0 & Hs1).
  rewrite Hfs in Hfs'. injection Hfs' as <- <-.
  destruct (arc_predictions_spec (l_arc_states loc) Hws)
    as (preds' & Hp' & _ & _ & _ & Hgp).
  rewrite Hp in Hp'. injection Hp' as <-.
  destruct (get_is_Some (l_arc_states loc) b p Hws) as [h Hh]; [lia|lia|].
  exists h. split; [done|]. split; [by rewrite Hgp, Hh|].
  assert (fhalf (fneg (arc_head h)) = fneg (fhalf (arc_head h))) as Hneg
    by apply SFdiv_opp_l.
  split; [done|]. rewrite Hneg. unfold fadd, fneg. rewrite SFadd_opp_l.
  by destruct (fhalf (arc_head h)).
Qed.

Lemma arc_scores_signed_pair_witness :
  ∃ lm_logits arc_preds tg,
    @forward toy_model toy_draw ids_2x3 0 false
    = Some (lm_logits, arc_preds, tg)
    ∧ ∃ x y, get arc_preds 1 0 = Some [x; y] ∧ x = SFopp y.
Proof.
  destruct (@forward_is_Some toy_model toy_draw ids_2x3 0%Z false
              toy_keeps_shape wf_ids_2x3 ltac:(simpl; lia))
    as (lm & loc & preds & tg & _ & _ & _ & Hf).
  exists lm, preds, tg. split; [exact Hf|].
  destruct (@arc_scores_signed_pair toy_model toy_draw ids_2x3 0%Z false
              lm preds tg toy_keeps_shape wf_ids_2x3 Hf) as (loc' & _ & Hs).
  destruct (Hs 1 0 ltac:(simpl; lia) ltac:(simpl; lia))
    as (h & _ & Hp & Hn & _).
  eexists _, _. split; [exact Hp|exact Hn].
Defined.

(** C7 as stated fails: where the head's output overflows to +infinity
    (here 16 * 2^124 in binary32, from a finite weight and a finite hidden
    state), the class scores are -infinity and +infinity and their sum is
    NaN, not zero. *)
Lemma arc_scores_sum_not_zero :
  ∃ lm_logits arc_preds tg,
    @forward toy_model toy_draw ids_2x3 0 false
    = Some (lm_logits, arc_preds, tg)
    ∧ get arc_preds 1 1 = Some [S754_infinity true; S754_infinity false]
    ∧ @fadd toy_model (S754_infinity true) (S754_infinity false) = S754_nan
    ∧ @fadd toy_model (S754_infinity true) (S754_infinity false)
      ≠ S754_zero false
    ∧ @fadd toy_model (S754_infinity true) (S754_infinity false)
      ≠ S754_zero true.
Proof.
  eexists _, _, _. split; [vm_compute; reflexivity|].
  split; [vm_compute; reflexivity|]. split; [reflexivity|].
  split; discriminate.
Qed.

(** ** The caller's tensors are not written *)

Section Frame.
Context {A B : Type}.

Lemma preserves_ret h0 (a : A) (Q : A → Prop) : Q a → preserves h0 (ret a) Q.
Proof. intros HQ h Hh. split; [done|]. by intros a' [= <-]. Qed.

Lemma preserves_bind h0 (m : M A) (k : A → M B) (Q : A → Prop) (R : B → Prop) :
  preserves h0 m Q → (∀ a, Q a → preserves h0 (k a) R) →
  preserves h0 (bind m k) R.
Proof.
  intros Hm Hk h Hh. unfold bind. destruct (Hm h Hh) as [Hsub HQ].
  destruct (m h) as [[a|] h']; simpl in *; [|done].
  by apply (Hk a (HQ a eq_refl) h').
Qed.

Lemma preserves_weaken h0 (m : M A) (Q R : A → Prop) :
  preserves h0 m Q → (∀ a, Q a → R a) → preserves h0 m R.
Proof.
  intros Hm HQR h Hh. destruct (Hm h Hh) as [Hsub HQ]. split; [done|].
  intros a Ha. auto.
Qed.

Lemma preserves_lift h0 (o : option A) : preserves h0 (lift o) (λ _, True).
Proof. intros h Hh. done. Qed.
End Frame.

Lemma preserves_load h0 l : preserves h0 (load l) (λ _, True).
Proof. intros h Hh. done. Qed.

(** A new tensor gets a reference outside [h0]. *)
Lemma preserves_alloc h0 t : preserves h0 (alloc t) (λ l, h0 !! l = None).
Proof.
  intros h Hh. unfold alloc. simpl.
  assert (h !! fresh (dom h) = None) as Hfresh
    by (apply not_elem_of_dom, is_fresh).
  assert (h0 !! fresh (dom h) = None) as Hfresh0.
  { destruct (h0 !! fresh (dom h)) as [x|] eqn:Hx; [|done].
    rewrite (lookup_weaken _ _ _ _ Hx Hh) in Hfresh. done. }
  split.
  - by apply insert_subseteq_r.
  - by intros l [= <-].
Qed.

(** An in-place write to a tensor outside [h0]. *)
Lemma preserves_update h0 l f :
  h0 !! l = None → preserves h0 (update l f) (λ _, True).
Proof.
  intros Hl h Hh. unfold update.
  destruct (h !! l ≫= f) as [t|]; simpl; [|done].
  split; [|done]. by apply insert_subseteq_r.
Qed.

Lemma negative_samples_ref_preserves `{Model} draw input_ids
    (lm_logits : tensor logits) debug h0 :
  preserves h0 (negative_samples_ref draw input_ids lm_logits debug)
    (λ l, h0 !! l = None).
Proof.
  unfold negative_samples_ref.
  eapply preserves_bind; [apply preserves_alloc|]. intros neg0 Hneg0.
  destruct debug; [|by apply preserves_ret].
  eapply preserves_bind.
  { eapply preserves_bind; [apply preserves_load|]. intros x _.
    apply preserves_alloc. }
  intros neg Hneg.
  eapply preserves_bind; [apply preserves_load|]. intros src _.
  eapply preserves_bind; [by apply preserves_update|]. intros _ _.
  by apply preserves_ret.
Qed.

Lemma arc_inputs_ref_preserves input_ids neg_ids h0 :
  preserves h0 (arc_inputs_ref input_ids neg_ids) (λ l, h0 !! l = None).
Proof.
  unfold arc_inputs_ref.
  eapply preserves_bind; [apply preserves_load|]. intros x _.
  eapply preserves_bind; [apply preserves_load|]. intros n _.
  eapply preserves_bind; [apply preserves_lift|]. intros t _.
  apply preserves_alloc.
Qed.

Lemma arc_target_tensor_ref_preserves input_ids pad_token_id h0 :
  preserves h0 (arc_target_tensor_ref input_ids pad_token_id)
    (λ l, h0 !! l = None).
Proof.
  unfold arc_target_tensor_ref.
  eapply preserves_bind; [apply preserves_load|]. intros x _.
  eapply preserves_bind; [apply preserves_alloc|]. intros tg Htg.
  eapply preserves_bind; [by apply preserves_update|]. intros _ _.
  eapply preserves_bind; [by apply preserves_update|]. intros _ _.
  eapply preserves_bind; [by apply preserves_update|]. intros _ _.
  eapply preserves_bind; [apply preserves_load|]. intros x' _.
  eapply preserves_bind; [apply preserves_lift|]. intros doubled _.
  eapply preserves_bind; [apply preserves_load|]. intros t _.
  eapply preserves_bind; [apply preserves_lift|]. intros r _.
  apply preserves_alloc.
Qed.

Lemma forward_ref_preserves `{Model} draw input_ids pad_token_id debug h0 :
  preserves h0 (forward_ref draw input_ids pad_token_id debug)
    (λ r, h0 !! r.2 = None).
Proof.
  unfold forward_ref.
  eapply preserves_bind; [apply preserves_load|]. intros x _.
  destruct (model x None None DynamicCache) as [out kv].
  eapply preserves_bind; [apply negative_samples_ref_preserves|].
  intros neg _.
  eapply preserves_bind; [apply arc_inputs_ref_preserves|]. intros arc _.
  eapply preserves_bind; [apply preserves_lift|]. intros arc_mask _.
  eapply preserves_bind; [apply preserves_load|]. intros a _.
  destruct (model a (Some arc_mask) _ kv) as [arc_out kv'].
  eapply preserves_bind; [apply preserves_lift|]. intros arc_states _.
  eapply preserves_bind; [apply preserves_lift|]. intros arc_preds _.
  eapply preserves_bind; [apply arc_target_tensor_ref_preserves|].
  intros tg Htg. by apply preserves_ret.
Qed.

(** ** The run on references computes what [forward] computes *)

Lemma runs_bind {A B} (m : M A) (k : A → M B) h Q :
  runs m h (λ r h', match r with
                    | Some a => runs (k a) h' Q
                    | None => Q None h'
                    end) →
  runs (bind m k) h Q.
Proof. unfold runs, bind. by destruct (m h) as [[a|] h']. Qed.

Lemma runs_ret {A} (a : A) h Q : Q (Some a) h → runs (ret a) h Q.
Proof. done. Qed.

Lemma runs_lift {A} (o : option A) h Q : Q o h → runs (lift o) h Q.
Proof. done. Qed.

Lemma runs_load l h t Q : h !! l = Some t → Q (Some t) h → runs (load l) h Q.
Proof. intros Hl HQ. unfold runs, load. simpl. by rewrite Hl. Qed.

Lemma runs_alloc t h Q :
  (∀ l, h !! l = None → Q (Some l) (<[l := t]> h)) → runs (alloc t) h Q.
Proof.
  intros HQ. unfold runs, alloc. simpl. apply HQ.
  apply not_elem_of_dom, is_fresh.
Qed.

Lemma runs_update l f h t Q :
  h !! l = Some t →
  match f t with
  | Some t' => Q (Some ()) (<[l := t']> h)
  | None => Q None h
  end →
  runs (update l f) h Q.
Proof.
  intros Hl HQ. unfold runs, update. rewrite Hl. simpl.
  by destruct (f t).
Qed.

Lemma runs_mono {A} (m : M A) h (Q Q' : option A → gmap loc (tensor Z) → Prop) :
  runs m h Q → (∀ r h', Q r h' → Q' r h') → runs m h Q'.
Proof. unfold runs. auto. Qed.

Lemma negative_samples_ref_runs `{Model} draw input_ids
    (lm_logits : tensor logits) debug h x :
  h !! input_ids = Some x →
  runs (negative_samples_ref draw input_ids lm_logits debug) h
    (yields (negative_samples draw x lm_logits debug) h).
Proof.
  intros Hx. unfold negative_samples_ref, negative_samples.
  apply runs_bind, runs_alloc. intros l1 Hl1.
  assert (l1 ≠ input_ids) as Hne1 by congruence.
  assert (h ⊆ <[l1 := sample draw lm_logits]> h) as Hsub1
    by by apply insert_subseteq.
  destruct debug.
  - apply runs_bind, runs_bind, (runs_load _ _ x);
      [by rewrite lookup_insert_ne|].
    apply runs_alloc. intros l2 Hl2.
    assert (l2 ≠ input_ids)
      as Hne2 by (intros ->; rewrite lookup_insert_ne in Hl2 by done;
                  congruence).
    pose proof (lookup_weaken_None _ _ _ Hl2 Hsub1) as Hl2'.
    apply runs_bind, (runs_load _ _ x);
      [by rewrite !lookup_insert_ne|].
    apply runs_bind, (runs_update _ _ _ (clone x));
      [by rewrite lookup_insert_eq|].
    destruct (setitem_cols _ _ (clone x)) as [neg|] eqn:Hneg.
    + apply runs_ret. rewrite insert_insert_eq. split.
      * by apply insert_subseteq_r.
      * exists l2. by rewrite lookup_insert_eq.
    + split; [|done]. by apply insert_subseteq_r.
  - apply runs_ret. split; [done|].
    exists l1. by rewrite lookup_insert_eq.
Qed.

Lemma arc_inputs_ref_runs input_ids neg_ids h x n :
  h !! input_ids = Some x → h !! neg_ids = Some n →
  runs (arc_inputs_ref input_ids neg_ids) h (yields (arc_inputs x n) h).
Proof.
  intros Hx Hn. unfold arc_inputs_ref.
  apply runs_bind, (runs_load _ _ x); [done|].
  apply runs_bind, (runs_load _ _ n); [done|].
  apply runs_bind, runs_lift.
  destruct (arc_inputs x n) as [arc|]; [|done].
  apply runs_alloc. intros l Hl. split; [by apply insert_subseteq|].
  exists l. by rewrite lookup_insert_eq.
Qed.

Lemma arc_target_tensor_ref_runs input_ids pad_token_id h x :
  h !! input_ids = Some x →
  runs (arc_target_tensor_ref input_ids pad_token_id) h
    (yields (arc_target_tensor x pad_token_id) h).
Proof.
  intros Hx. unfold arc_target_tensor_ref, arc_target_tensor.
  apply runs_bind, (runs_load _ _ x); [done|].
  apply runs_bind, runs_alloc. intros l Hl.
  assert (l ≠ input_ids) as Hne by congruence.
  set (t0 := full (shape0 x) (2 * shape1 x) 1%Z).
  set (t1 := fill_cols _ 0%Z t0).
  apply runs_bind, (runs_update _ _ _ t0); [by rewrite lookup_insert_eq|].
  rewrite insert_insert_eq.
  apply runs_bind, (runs_update _ _ _ t1); [by rewrite lookup_insert_eq|].
  destruct (fill_col 0 (-1)%Z t1) as [t2|];
    [|split; [by apply insert_subseteq|done]].
  rewrite insert_insert_eq. cbn [mbind option_bind].
  apply runs_bind, (runs_update _ _ _ t2); [by rewrite lookup_insert_eq|].
  destruct (fill_col (Z.of_nat (shape1 x)) (-1)%Z t2) as [t3|];
    [|split; [by apply insert_subseteq|done]].
  rewrite insert_insert_eq. cbn [mbind option_bind].
  apply runs_bind, (runs_load _ _ x); [by rewrite lookup_insert_ne|].
  apply runs_bind, runs_lift.
  destruct (cat1 x x) as [doubled|];
    [|split; [by apply insert_subseteq|done]].
  cbn [mbind option_bind].
  apply runs_bind, (runs_load _ _ t3); [by rewrite lookup_insert_eq|].
  apply runs_bind, runs_lift.
  destruct (masked_fill t3 _ (-1)%Z) as [tg|];
    [|split; [by apply insert_subseteq|done]].
  apply runs_alloc. intros l' Hl'.
  pose proof (lookup_weaken_None _ _ _ Hl' (insert_subseteq _ l t3 Hl)) as Hl''.
  split.
  - apply insert_subseteq_r; [done|]. by apply insert_subseteq.
  - exists l'. by rewrite lookup_insert_eq.
Qed.

Lemma forward_ref_runs `{Model} draw input_ids pad_token_id debug h x :
  h !! input_ids = Some x →
  runs (forward_ref draw input_ids pad_token_id debug) h (λ r h',
    h ⊆ h'
    ∧ match forward draw x pad_token_id debug with
      | Some (lm_logits, arc_preds, tg) =>
          ∃ l, r = Some (lm_logits, arc_preds, l)
               ∧ h' !! l = Some tg ∧ h !! l = None
      | None => r = None
      end).
Proof.
  intros Hx. unfold forward_ref, forward, forward_states.
  apply runs_bind, (runs_load _ _ x); [done|].
  destruct (model x None None DynamicCache) as [out kv].
  set (lm := tmap log_softmax (tmap lm_head out)).
  apply runs_bind.
  eapply runs_mono; [by apply negative_samples_ref_runs|].
  intros r h1 [Hsub1 Hr].
  destruct (negative_samples draw x lm debug) as [neg|];
    cbn [mbind option_bind]; [|by subst r].
  destruct Hr as (l1 & -> & Hv1 & Hn1).
  pose proof (lookup_weaken _ _ _ _ Hx Hsub1) as Hx1.
  apply runs_bind.
  eapply runs_mono; [by apply (arc_inputs_ref_runs _ _ _ x neg)|].
  intros r h2 [Hsub2 Hr].
  assert (h ⊆ h2) as Hsub12 by by etrans.
  destruct (arc_inputs x neg) as [arc|];
    cbn [mbind option_bind]; [|by subst r].
  destruct Hr as (l2 & -> & Hv2 & Hn2).
  pose proof (lookup_weaken _ _ _ _ Hx Hsub12) as Hx2.
  apply runs_bind, runs_lift.
  destruct (_get_arc_mask x true) as [mask|]; cbn [mbind option_bind];
    [|done].
  apply runs_bind, (runs_load _ _ arc); [done|].
  destruct (model arc (Some mask) _ kv) as [arc_out kv'].
  apply runs_bind, runs_lift.
  destruct (cat1 out arc_out) as [states|]; cbn [mbind option_bind];
    [|done].
  apply runs_bind, runs_lift. cbn [l_arc_states].
  destruct (arc_predictions states) as [preds|]; cbn [mbind option_bind];
    [|done].
  apply runs_bind.
  eapply runs_mono; [by apply (arc_target_tensor_ref_runs _ _ _ x)|].
  intros r h3 [Hsub3 Hr].
  assert (h ⊆ h3) as Hsub13 by by etrans.
  destruct (arc_target_tensor x pad_token_id) as [tg|];
    cbn [mbind option_bind]; [|by subst r].
  destruct Hr as (l3 & -> & Hv3 & Hn3).
  apply runs_ret. split; [done|]. exists l3.
  split; [done|]. split; [done|].
  by apply (lookup_weaken_None _ _ _ Hn3).
Qed.

(** C9: forward does not write into the caller's input tensor, with or
    without debug: after the call the store holds every tensor it held
    before, unchanged, whether the call returns or raises. The negatives
    are a new tensor in both modes (the draw, or the copy of the input that
    the left shift is written into), and the call computes what [forward]
    computes. *)
Theorem forward_keeps_input `{Model} draw input_ids pad_token_id debug
    (h : gmap loc (tensor Z)) (x : tensor Z) :
  h !! input_ids = Some x →
  (forward_ref draw input_ids pad_token_id debug h).2 !! input_ids = Some x
  ∧ (∀ l t, h !! l = Some t →
       (forward_ref draw input_ids pad_token_id debug h).2 !! l = Some t)
  ∧ (∀ lm_logits : tensor logits,
       yields (negative_samples draw x lm_logits debug) h
         (negative_samples_ref draw input_ids lm_logits debug h).1
         (negative_samples_ref draw input_ids lm_logits debug h).2)
  ∧ match forward draw x pad_token_id debug with
    | Some (lm_logits, arc_preds, tg) =>
        ∃ l, (forward_ref draw input_ids pad_token_id debug h).1
             = Some (lm_logits, arc_preds, l)
             ∧ (forward_ref draw input_ids pad_token_id debug h).2 !! l
               = Some tg
             ∧ h !! l = None
    | None => (forward_ref draw input_ids pad_token_id debug h).1 = None
    end.
Proof.
  intros Hx.
  destruct (forward_ref_preserves draw input_ids pad_token_id debug h h)
    as [Hsub _]; [done|].
  split; [by apply (lookup_weaken _ _ _ _ Hx)|].
  split; [intros l t Hl; by apply (lookup_weaken _ _ _ _ Hl)|].
  split; [intros lm; by apply negative_samples_ref_runs|].
  by apply (forward_ref_runs draw input_ids pad_token_id debug h x Hx).
Qed.

Lemma forward_keeps_input_witness :
  (@forward_ref toy_model toy_draw 1%positive 0%Z true
     {[1%positive := ids_5670]}).2 !! 1%positive = Some ids_5670.
Proof.
  destruct (@forward_keeps_input toy_model toy_draw 1%positive 0%Z true
              {[1%positive := ids_5670]} ids_5670) as [Hkeep _].
  - vm_compute. reflexivity.
  - exact Hkeep.
Defined.

(** * Further properties of the code *)

(** ** The two masks and the position ids together *)

(** The quadrants of the uncached mask and the blocks of the cached one,
    for use below. *)
Lemma uncached_mask_quadrants (input_ids : tensor Z) :
  ∃ top bot mask,
    cat1 (triu (ones_bool (shape1 input_ids) (shape1 input_ids)) 1)
         (ones_bool (shape1 input_ids) (shape1 input_ids)) = Some top
    ∧ _get_arc_mask input_ids true = Some bot
    ∧ cat0 top bot = Some mask
    ∧ _get_arc_mask input_ids false = Some mask
    ∧ wf top ∧ wf bot ∧ wf mask
    ∧ shape0 top = shape1 input_ids
    ∧ shape0 bot = shape1 input_ids ∧ shape1 bot = 2 * shape1 input_ids
    ∧ shape0 mask = 2 * shape1 input_ids
    ∧ shape1 mask = 2 * shape1 input_ids
    ∧ ∀ i j, i < shape1 input_ids → j < shape1 input_ids →
        get top i j = Some (bool_decide (i < j))
        ∧ get top i (shape1 input_ids + j) = Some true
        ∧ get bot i j = Some (bool_decide (i ≤ j))
        ∧ get bot i (shape1 input_ids + j) = Some (bool_decide (i ≠ j)).
Proof.
  unfold _get_arc_mask. set (L := shape1 input_ids).
  set (nw := triu (ones_bool L L) 1). set (sw := triu (ones_bool L L) 0).
  set (ne := ones_bool L L). set (se := lnot (eye L)).
  assert (wf nw) as Hnw by apply wf_triu, wf_ones_bool.
  assert (wf sw) as Hsw by apply wf_triu, wf_ones_bool.
  assert (wf ne) as Hne by apply wf_ones_bool.
  assert (wf se) as Hse by apply wf_se.
  destruct (cat1_is_Some nw ne eq_refl) as [top Htop].
  destruct (cat1_is_Some sw se eq_refl) as [bot Hbot].
  rewrite Htop, Hbot. cbn [mbind option_bind].
  destruct (cat1_shape _ _ _ Htop) as (Ht0 & Ht1 & _).
  destruct (cat1_shape _ _ _ Hbot) as (Hb0 & Hb1 & _).
  cbn [shape0 shape1 nw sw ne se triu ones_bool full lnot tmap eye]
    in Ht0, Ht1, Hb0, Hb1.
  assert (wf top) as Hwtop by by apply (wf_cat1 nw ne).
  assert (wf bot) as Hwbot by by apply (wf_cat1 sw se).
  destruct (cat0 top bot) as [mask|] eqn:Hmask;
    [|unfold cat0 in Hmask; rewrite decide_True in Hmask by lia; done].
  destruct (cat0_shape _ _ _ Hmask) as (Hm0 & Hm1 & _).
  exists top, bot, mask. repeat (split; [done || lia|]).
  split; [by apply (wf_cat0 top bot)|].
  repeat (split; [done || lia|]).
  intros i j Hi Hj. repeat split.
  - rewrite (get_cat1_l nw ne top) by done. by apply get_nw.
  - change L with (shape1 nw) at 1.
    rewrite (get_cat1_r nw ne top) by done. by apply get_full.
  - rewrite (get_cat1_l sw se bot) by done. by apply get_sw.
  - change L with (shape1 sw) at 1.
    rewrite (get_cat1_r sw se bot) by done. by apply get_se.
Qed.

(** Which columns a row of the cached mask may attend to. *)
Lemma cached_mask_permits (input_ids : tensor Z) bot i c :
  _get_arc_mask input_ids true = Some bot →
  i < shape1 input_ids →
  may_attend bot i c ↔ c < i ∨ c = shape1 input_ids + i.
Proof.
  intros Hbot Hi.
  destruct (uncached_mask_quadrants input_ids)
    as (top & bot' & mask & _ & Hbot' & _ & _ & _ & Hwb & _ & _ & Hb0 & Hb1
        & _ & _ & Hq).
  rewrite Hbot in Hbot'. injection Hbot' as <-.
  set (L := shape1 input_ids) in *. unfold may_attend.
  destruct (decide (c < L)) as [Hc|Hc].
  - destruct (Hq i c Hi Hc) as (_ & _ & -> & _). split.
    + intros [= Hb]. apply bool_decide_eq_false in Hb. lia.
    + intros [?|?]; [|lia]. f_equal. apply bool_decide_eq_false. lia.
  - destruct (decide (c < 2 * L)) as [Hc2|Hc2].
    + destruct (Hq i (c - L) Hi ltac:(lia)) as (_ & _ & _ & Hg).
      replace (L + (c - L)) with c in Hg by lia. rewrite Hg. split.
      * intros [= Hb]. apply bool_decide_eq_false in Hb.
        right. destruct (decide (i = c - L)); [lia|done].
      * intros [?|?]; [lia|]. f_equal. apply bool_decide_eq_false. lia.
    + rewrite get_cols_None by (done || lia). split; [done|lia].
Qed.

(** Which columns a row of the uncached mask may attend to. *)
Lemma uncached_mask_permits (input_ids : tensor Z) mask r c :
  _get_arc_mask input_ids false = Some mask →
  r < 2 * shape1 input_ids →
  may_attend mask r c
  ↔ if decide (r < shape1 input_ids) then c ≤ r
    else c < r - shape1 input_ids ∨ c = r.
Proof.
  intros Hmask Hr.
  destruct (uncached_mask_quadrants input_ids)
    as (top & bot & mask' & Htop & Hbot & Hcat & Hmask' & Hwt & Hwb & _ & Ht0
        & Hb0 & Hb1 & _ & _ & Hq).
  rewrite Hmask in Hmask'. injection Hmask' as <-.
  set (L := shape1 input_ids) in *.
  destruct (cat1_shape _ _ _ Htop) as (_ & Ht1 & _).
  cbn [shape1 triu ones_bool full] in Ht1. fold L in Ht1.
  case_decide as HrL.
  - unfold may_attend. rewrite (get_cat0_l top bot mask) by (done || lia).
    destruct (decide (c < L)) as [Hc|Hc].
    + destruct (Hq r c HrL Hc) as (-> & _). split.
      * intros [= Hb]. apply bool_decide_eq_false in Hb. lia.
      * intros ?. f_equal. apply bool_decide_eq_false. lia.
    + destruct (decide (c < 2 * L)) as [Hc2|Hc2].
      * destruct (Hq r (c - L) HrL ltac:(lia)) as (_ & Hg & _).
        replace (L + (c - L)) with c in Hg by lia. rewrite Hg.
        split; [done|lia].
      * rewrite get_cols_None by (done || lia). split; [done|lia].
  - unfold may_attend. replace r with (shape0 top + (r - L)) at 1 by lia.
    rewrite (get_cat0_r top bot mask) by done.
    rewrite (cached_mask_permits input_ids bot (r - L) c Hbot) by lia.
    fold L. split; intros [?|?]; lia.
Qed.

Lemma arc_position_ids_lookup (input_ids : tensor Z) p :
  p < shape1 input_ids →
  _get_arc_position_ids input_ids true !! p = Some (Z.of_nat p)
  ∧ _get_arc_position_ids input_ids false !! p = Some (Z.of_nat p)
  ∧ _get_arc_position_ids input_ids false !! (shape1 input_ids + p)
    = Some (Z.of_nat p).
Proof.
  intros Hp. unfold _get_arc_position_ids.
  assert (map Z.of_nat (seq 0 (shape1 input_ids)) !! p = Some (Z.of_nat p))
    as Hl by (by rewrite list_lookup_fmap, lookup_seq_lt).
  split; [done|]. split.
  - rewrite lookup_app_l by (by rewrite length_map, length_seq). done.
  - rewrite lookup_app_r by (rewrite length_map, length_seq; lia).
    rewrite length_map, length_seq.
    by replace (shape1 input_ids + p - shape1 input_ids) with p by lia.
Qed.

Lemma arc_position_ids_uncached_at (input_ids : tensor Z) p :
  p < 2 * shape1 input_ids →
  _get_arc_position_ids input_ids false !! p
  = Some (Z.of_nat (if decide (p < shape1 input_ids) then p
                    else p - shape1 input_ids)).
Proof.
  intros Hp. case_decide as HpL.
  - by apply (arc_position_ids_lookup input_ids p).
  - replace p with (shape1 input_ids + (p - shape1 input_ids)) at 1 by lia.
    apply (arc_position_ids_lookup input_ids (p - shape1 input_ids)). lia.
Qed.

(** X1: the position ids count 0 .. L-1, once in cached mode (length L) and
    twice in a row in uncached mode (length 2L): entry p is p in the first
    L entries and p - L after them. *)
Theorem arc_position_ids_entries (input_ids : tensor Z) (cached : bool) p :
  p < (if cached then shape1 input_ids else 2 * shape1 input_ids) →
  length (_get_arc_position_ids input_ids cached)
  = (if cached then shape1 input_ids else 2 * shape1 input_ids)
  ∧ _get_arc_position_ids input_ids cached !! p
    = Some (Z.of_nat (if decide (p < shape1 input_ids) then p
                      else p - shape1 input_ids)).
Proof.
  intros Hp. split.
  - unfold _get_arc_position_ids.
    destruct cached; rewrite ?length_app, !length_map, !length_seq; lia.
  - destruct cached.
    + rewrite decide_True by done.
      by apply (arc_position_ids_lookup input_ids p).
    + by apply arc_position_ids_uncached_at.
Qed.

Lemma arc_position_ids_entries_witness :
  length (_get_arc_position_ids ids_2x3 false) = 6
  ∧ _get_arc_position_ids ids_2x3 false !! 4 = Some 1%Z.
Proof.
  apply (arc_position_ids_entries ids_2x3 false 4). simpl. lia.
Defined.

(** X2: the bottom half of the uncached mask is the cached mask: row L + i
    of the mask for a fresh run over the doubled sequence is row i of the
    mask for the run that reuses the cache. *)
Theorem uncached_bottom_is_cached (input_ids : tensor Z) :
  ∃ uncached cached,
    _get_arc_mask input_ids false = Some uncached
    ∧ _get_arc_mask input_ids true = Some cached
    ∧ shape0 uncached = 2 * shape0 cached
    ∧ shape1 uncached = shape1 cached
    ∧ ∀ i j, get uncached (shape1 input_ids + i) j = get cached i j.
Proof.
  destruct (uncached_mask_quadrants input_ids)
    as (top & bot & mask & _ & Hbot & Hcat & Hmask & Hwt & _ & _ & Ht0 & Hb0
        & Hb1 & Hm0 & Hm1 & _).
  exists mask, bot. repeat (split; [done || lia|]).
  intros i j. rewrite <- Ht0. by apply (get_cat0_r top bot mask).
Qed.

(** X3: the uncached mask is causal in position: every row may attend to
    itself, and a row never attends to a later column of the doubled
    sequence nor to a column whose position id is larger than its own. *)
Theorem uncached_mask_causal (input_ids : tensor Z) mask :
  _get_arc_mask input_ids false = Some mask →
  (∀ r, r < 2 * shape1 input_ids → may_attend mask r r)
  ∧ ∀ r c, may_attend mask r c →
      c ≤ r
      ∧ ∃ pr pc,
          _get_arc_position_ids input_ids false !! r = Some pr
          ∧ _get_arc_position_ids input_ids false !! c = Some pc
          ∧ (pc ≤ pr)%Z.
Proof.
  intros Hmask. split.
  - intros r Hr. apply (uncached_mask_permits input_ids mask r r Hmask Hr).
    case_decide; lia.
  - intros r c Hrc.
    destruct (uncached_mask_quadrants input_ids)
      as (_ & _ & mask' & _ & _ & _ & Hmask' & _ & _ & Hwm & _ & _ & _ & Hm0
          & _ & _).
    rewrite Hmask in Hmask'. injection Hmask' as <-.
    assert (r < 2 * shape1 input_ids) as Hr.
    { destruct (decide (r < 2 * shape1 input_ids)); [done|].
      unfold may_attend in Hrc. rewrite get_rows_None in Hrc by (done || lia).
      done. }
    apply (uncached_mask_permits input_ids mask r c Hmask Hr) in Hrc.
    assert (c ≤ r) as Hle by (case_decide; lia).
    split; [done|].
    pose proof (arc_position_ids_uncached_at input_ids r Hr) as Hpr.
    pose proof (arc_position_ids_uncached_at input_ids c ltac:(lia)) as Hpc.
    eexists _, _. split; [exact Hpr|]. split; [exact Hpc|].
    repeat case_decide; lia.
Qed.

Lemma uncached_mask_causal_witness :
  ∃ mask,
    _get_arc_mask ids_2x3 false = Some mask ∧ may_attend mask 4 4
    ∧ (may_attend mask 4 0 → 0 ≤ 4).
Proof.
  destruct (uncached_mask_quadrants ids_2x3)
    as (_ & _ & mask & _ & _ & _ & Hmask & _).
  exists mask. split; [exact Hmask|].
  destruct (uncached_mask_causal ids_2x3 mask Hmask) as [Hself Hcausal].
  split.
  - apply Hself. simpl. lia.
  - intros Hma. apply (Hcausal 4 0 Hma).
Defined.

(** Counting the columns below a bound, and below a bound or at one more
    column. *)
Lemma filter_ext_elem {A} (P Q : A → Prop) `{!∀ x, Decision (P x)}
    `{!∀ x, Decision (Q x)} (l : list A) :
  (∀ x, x ∈ l → (P x ↔ Q x)) → filter P l = filter Q l.
Proof.
  induction l as [|x l IH]; intros HPQ; [done|].
  rewrite !filter_cons.
  rewrite IH by (intros y Hy; apply HPQ; by right).
  destruct (HPQ x ltac:(by left)) as [H1 H2].
  destruct (decide (P x)), (decide (Q x)); done || tauto.
Qed.

Lemma count_upto r n :
  length (filter (λ c, c ≤ r) (seq 0 n)) = Nat.min n (r + 1).
Proof.
  induction n as [|n IH]; [done|].
  rewrite seq_S, filter_app, length_app, IH.
  rewrite filter_cons, filter_nil. case_decide; cbn [length]; lia.
Qed.

Lemma count_below_or i k n :
  i ≤ k →
  length (filter (λ c, c < i ∨ c = k) (seq 0 n))
  = Nat.min n i + (if decide (k < n) then 1 else 0).
Proof.
  intros Hik. induction n as [|n IH]; [done|].
  rewrite seq_S, filter_app, length_app, IH.
  rewrite filter_cons, filter_nil.
  repeat case_decide; cbn [length]; lia.
Qed.

(** X4: position i sees i + 1 keys in both passes. Row i of the uncached
    mask (the real sequence) and row L + i (the arc sequence) each may
    attend to exactly i + 1 columns, and so does row i of the cached mask;
    no row is blocked everywhere. *)
Theorem mask_keys_permitted (input_ids : tensor Z) i :
  i < shape1 input_ids →
  ∃ uncached cached,
    _get_arc_mask input_ids false = Some uncached
    ∧ _get_arc_mask input_ids true = Some cached
    ∧ keys_permitted uncached i = i + 1
    ∧ keys_permitted uncached (shape1 input_ids + i) = i + 1
    ∧ keys_permitted cached i = i + 1.
Proof.
  intros Hi.
  destruct (uncached_mask_quadrants input_ids)
    as (top & bot & mask & _ & Hbot & _ & Hmask & _ & _ & _ & _ & _ & Hb1
        & _ & Hm1 & _).
  set (L := shape1 input_ids) in *.
  exists mask, bot. split; [done|]. split; [done|].
  unfold keys_permitted. rewrite Hm1, Hb1. repeat split.
  - rewrite (filter_ext_elem _ (λ c, c ≤ i)).
    + rewrite count_upto. lia.
    + intros c _.
      rewrite <- (decide_True (c ≤ i) (c < i - L ∨ c = i) Hi).
      apply (uncached_mask_permits input_ids mask i c Hmask). fold L. lia.
  - rewrite (filter_ext_elem _ (λ c, c < i ∨ c = L + i)).
    + rewrite count_below_or by lia. rewrite decide_True by lia. lia.
    + intros c _.
      pose proof (uncached_mask_permits input_ids mask (L + i) c Hmask
                    ltac:(fold L; lia)) as Hp.
      fold L in Hp. rewrite decide_False in Hp by lia.
      rewrite Hp. split; intros [?|?]; lia.
  - rewrite (filter_ext_elem _ (λ c, c < i ∨ c = L + i)).
    + rewrite count_below_or by lia. rewrite decide_True by lia. lia.
    + intros c _. by apply (cached_mask_permits input_ids bot i c).
Qed.

Lemma mask_keys_permitted_witness :
  ∃ uncached cached,
    _get_arc_mask ids_2x3 false = Some uncached
    ∧ _get_arc_mask ids_2x3 true = Some cached
    ∧ keys_permitted uncached 2 = 3
    ∧ keys_permitted uncached 5 = 3
    ∧ keys_permitted cached 2 = 3.
Proof.
  apply (mask_keys_permitted ids_2x3 2). simpl. lia.
Defined.

(** ** More on the forward pass *)

Section ForwardMore.
Context `{Model}.
Implicit Types (input_ids : tensor Z) (draw : nat → nat → logits → Z).

(** What the local variables of a run were computed from, and their
    shapes. *)
Lemma forward_states_inv draw input_ids debug lm_logits loc :
  forward_states draw input_ids debug = Some (lm_logits, loc) →
  ∃ out kv arc_out kv',
    model input_ids None None DynamicCache = (out, kv)
    ∧ lm_logits = tmap log_softmax (tmap lm_head out)
    ∧ negative_samples draw input_ids lm_logits debug = Some (l_neg_ids loc)
    ∧ arc_inputs input_ids (l_neg_ids loc) = Some (l_arc_ids loc)
    ∧ _get_arc_mask input_ids true = Some (l_arc_mask loc)
    ∧ l_arc_position_ids loc = _get_arc_position_ids input_ids true
    ∧ model (l_arc_ids loc) (Some (l_arc_mask loc))
        (Some (l_arc_position_ids loc)) kv = (arc_out, kv')
    ∧ cat1 out arc_out = Some (l_arc_states loc).
Proof.
  unfold forward_states.
  destruct (model input_ids None None DynamicCache) as [out kv] eqn:Hout.
  set (lm := tmap log_softmax (tmap lm_head out)).
  destruct (negative_samples draw input_ids lm debug) as [neg|] eqn:Hneg;
    cbn [mbind option_bind]; [|done].
  destruct (arc_inputs input_ids neg) as [arc|] eqn:Harc;
    cbn [mbind option_bind]; [|done].
  destruct (_get_arc_mask input_ids true) as [mask|] eqn:Hmask;
    cbn [mbind option_bind]; [|done].
  destruct (model arc (Some mask) _ kv) as [arc_out kv'] eqn:Harcout.
  destruct (cat1 out arc_out) as [states|] eqn:Hst;
    cbn [mbind option_bind]; [|done].
  intros [= <- <-]. exists out, kv, arc_out, kv'. done.
Qed.

Lemma forward_states_shapes draw input_ids debug lm_logits loc :
  model_keeps_shape → wf input_ids →
  forward_states draw input_ids debug = Some (lm_logits, loc) →
  ∃ out kv arc_out kv',
    model input_ids None None DynamicCache = (out, kv)
    ∧ model (l_arc_ids loc) (Some (l_arc_mask loc))
        (Some (l_arc_position_ids loc)) kv = (arc_out, kv')
    ∧ cat1 out arc_out = Some (l_arc_states loc)
    ∧ wf out ∧ shape0 out = shape0 input_ids ∧ shape1 out = shape1 input_ids
    ∧ wf arc_out ∧ shape0 arc_out = shape0 input_ids
    ∧ shape1 arc_out = shape1 input_ids
    ∧ wf (l_arc_ids loc) ∧ shape0 (l_arc_ids loc) = shape0 input_ids
    ∧ shape1 (l_arc_ids loc) = shape1 input_ids
    ∧ wf (l_arc_states loc).
Proof.
  intros Hm Hwf Hfs.
  destruct (forward_states_spec draw input_ids debug Hm Hwf)
    as (lm' & loc' & Hfs' & _ & _ & _ & _ & _ & Hwn & Hn0 & Hn1 & Hws & _).
  rewrite Hfs in Hfs'. injection Hfs' as <- <-.
  destruct (forward_states_inv _ _ _ _ _ Hfs)
    as (out & kv & arc_out & kv' & Hout & _ & _ & Harc & _ & _ & Haout & Hst).
  destruct (arc_inputs_spec input_ids (l_neg_ids loc) Hwf Hwn Hn0 Hn1)
    as (arc & Harc' & Hwa & Ha0 & Ha1 & _).
  rewrite Harc in Harc'. injection Harc' as <-.
  destruct (Hm input_ids None None DynamicCache Hwf) as (Hwo & Ho0 & Ho1).
  rewrite Hout in Hwo, Ho0, Ho1. cbn [fst] in Hwo, Ho0, Ho1.
  destruct (Hm (l_arc_ids loc) (Some (l_arc_mask loc))
              (Some (l_arc_position_ids loc)) kv Hwa) as (Hwao & Hao0 & Hao1).
  rewrite Haout in Hwao, Hao0, Hao1. cbn [fst] in Hwao, Hao0, Hao1.
  exists out, kv, arc_out, kv'.
  repeat (split; [done || congruence|]). done.
Qed.

(** The arc inputs do not read the last column of the negatives. *)
Lemma arc_inputs_ignore_last input_ids (neg1 neg2 : tensor Z) :
  wf input_ids → wf neg1 → wf neg2 →
  shape0 neg1 = shape0 input_ids → shape1 neg1 = shape1 input_ids →
  shape0 neg2 = shape0 input_ids → shape1 neg2 = shape1 input_ids →
  (∀ b t, b < shape0 input_ids → t + 1 < shape1 input_ids →
     get neg1 b t = get neg2 b t) →
  arc_inputs input_ids neg1 = arc_inputs input_ids neg2.
Proof.
  intros Hwf Hw1 Hw2 H10 H11 H20 H21 Heq.
  destruct (arc_inputs_spec input_ids neg1 Hwf Hw1 H10 H11)
    as (arc1 & -> & Hwa1 & Ha10 & Ha11 & Hg1).
  destruct (arc_inputs_spec input_ids neg2 Hwf Hw2 H20 H21)
    as (arc2 & -> & Hwa2 & Ha20 & Ha21 & Hg2).
  f_equal. apply tensor_ext; try done; try congruence.
  intros b t Hb Ht. rewrite Hg1, Hg2 by lia.
  case_decide; [done|]. apply Heq; lia.
Qed.
End ForwardMore.





(** X7: the token drawn at the last position is never used: two draws that
    agree at every position but the last make forward return the same
    triple. *)
Theorem forward_ignores_last_draw `{Model} draw1 draw2 (input_ids : tensor Z)
    pad_token_id debug :
  model_keeps_shape → wf input_ids →
  (∀ b t v, t + 1 < shape1 input_ids → draw1 b t v = draw2 b t v) →
  forward draw1 input_ids pad_token_id debug
  = forward draw2 input_ids pad_token_id debug.
Proof.
  intros Hm Hwf Hdraw. unfold forward, forward_states.
  destruct (Hm input_ids None None DynamicCache Hwf) as (Hwo & Ho0 & Ho1).
  destruct (model input_ids None None DynamicCache) as [out kv].
  cbn [fst] in Hwo, Ho0, Ho1.
  set (lm := tmap log_softmax (tmap lm_head out)).
  assert (wf lm) as Hwlm by (unfold lm; auto using wf_tmap).
  destruct debug; [done|]. rewrite !negative_samples_drawn.
  cbn [mbind option_bind].
  assert (arc_inputs input_ids (sample draw1 lm)
          = arc_inputs input_ids (sample draw2 lm)) as Harc.
  { apply arc_inputs_ignore_last; try done; try (by apply wf_sample).
    intros b t Hb Ht. rewrite !get_sample.
    destruct (get lm b t); simpl; [|done]. f_equal. by apply Hdraw. }
  rewrite Harc.
  destruct (arc_inputs input_ids (sample draw2 lm)) as [arc|];
    cbn [mbind option_bind]; [|done].
  destruct (_get_arc_mask input_ids true) as [mask|];
    cbn [mbind option_bind]; [|done].
  destruct (model arc (Some mask) _ kv) as [arc_out kv'].
  destruct (cat1 out arc_out) as [states|]; cbn [mbind option_bind]; done.
Qed.

Lemma forward_ignores_last_draw_witness :
  @forward toy_model toy_draw ids_2x3 0%Z false
  = @forward toy_model (λ b t v, if decide (t = 2) then 0%Z else toy_draw b t v)
      ids_2x3 0%Z false.
Proof.
  apply (@forward_ignores_last_draw toy_model toy_draw _ ids_2x3 0%Z false
           toy_keeps_shape wf_ids_2x3).
  intros b t v Ht. simpl in Ht. rewrite decide_False by lia. reflexivity.
Defined.

(** X8: with debug=True the last column of the negatives keeps the input's
    last token (the copy is overwritten only up to column L - 2), so for
    L >= 2 the last token appears twice at the end of each row. *)
Theorem debug_negatives_last_column `{Model} draw (input_ids : tensor Z)
    (lm_logits : tensor logits) :
  wf input_ids → 0 < shape1 input_ids →
  ∃ neg_ids,
    negative_samples draw input_ids lm_logits true = Some neg_ids
    ∧ ∀ b, get neg_ids b (shape1 input_ids - 1)
           = get input_ids b (shape1 input_ids - 1)
           ∧ (2 ≤ shape1 input_ids →
              get neg_ids b (shape1 input_ids - 2)
              = get neg_ids b (shape1 input_ids - 1)).
Proof.
  intros Hwf HL.
  destruct (negative_samples_debug draw input_ids lm_logits Hwf)
    as (neg & Hneg & _ & _ & _ & Hget).
  exists neg. split; [done|]. intros b.
  assert (get neg b (shape1 input_ids - 1)
          = get input_ids b (shape1 input_ids - 1)) as Hlast
    by (rewrite Hget; by rewrite decide_False by lia).
  split; [done|]. intros HL2. rewrite Hlast, Hget.
  rewrite decide_True by lia. f_equal. lia.
Qed.

Lemma debug_negatives_last_column_witness :
  ∃ neg_ids,
    @negative_samples toy_model toy_draw ids_2x3 (Tensor 2 3 []) true
    = Some neg_ids
    ∧ get neg_ids 1 2 = get ids_2x3 1 2
    ∧ get neg_ids 1 1 = get neg_ids 1 2.
Proof.
  destruct (@debug_negatives_last_column toy_model toy_draw ids_2x3
              (Tensor 2 3 []) wf_ids_2x3 ltac:(simpl; lia))
    as (neg & Hneg & Hget).
  exists neg. split; [exact Hneg|].
  destruct (Hget 1) as [Hlast Hprev]. split; [exact Hlast|].
  apply Hprev. simpl. lia.
Defined.

(** X9: the two halves of the targets mirror each other: column p of the
    first half and column L + p of the second half are ignored together
    (both -1), or labelled 0 and 1; so every row has as many real as fake
    labels, whatever the padding. *)
Theorem arc_targets_mirrored `{Model} draw (input_ids : tensor Z)
    pad_token_id debug lm_logits arc_preds tg :
  wf input_ids →
  forward draw input_ids pad_token_id debug = Some (lm_logits, arc_preds, tg) →
  ∀ b p, b < shape0 input_ids → p < shape1 input_ids →
    (get tg b p = Some (-1)%Z
     ∧ get tg b (shape1 input_ids + p) = Some (-1)%Z)
    ∨ (get tg b p = Some 0%Z
       ∧ get tg b (shape1 input_ids + p) = Some 1%Z).
Proof.
  intros Hwf Hf b p Hb Hp.
  destruct (forward_targets _ _ _ _ _ _ _ Hwf Hf)
    as (HL & _ & _ & _ & doubled & _ & Hget).
  destruct (Hget b p Hb ltac:(lia)) as (x & _ & Hx & ->).
  destruct (Hget b (shape1 input_ids + p) Hb ltac:(lia)) as (y & _ & Hy & ->).
  rewrite decide_True in Hx by done. rewrite decide_False in Hy by lia.
  replace (shape1 input_ids + p - shape1 input_ids) with p in Hy by lia.
  assert (y = x) as -> by congruence.
  unfold arc_label.
  repeat case_decide; (by left) || (by right) || lia.
Qed.

Lemma arc_targets_mirrored_witness :
  ∃ lm_logits arc_preds tg,
    @forward toy_model toy_draw ids_5670 0%Z false
    = Some (lm_logits, arc_preds, tg)
    ∧ ((get tg 0 3 = Some (-1)%Z ∧ get tg 0 7 = Some (-1)%Z)
       ∨ (get tg 0 3 = Some 0%Z ∧ get tg 0 7 = Some 1%Z)).
Proof.
  destruct (@forward_is_Some toy_model toy_draw ids_5670 0%Z false
              toy_keeps_shape wf_ids_5670 ltac:(simpl; lia))
    as (lm & loc & preds & tg & _ & _ & _ & Hf).
  exists lm, preds, tg. split; [exact Hf|].
  apply (@arc_targets_mirrored toy_model toy_draw ids_5670 0%Z false
           lm preds tg wf_ids_5670 Hf 0 3); simpl; lia.
Defined.



(** X11: what forward returns for the real half does not depend on the
    negatives: the language-model logits and the class scores of columns
    0 .. L-1 are the same for every draw, with or without debug and for
    every pad id. *)
Theorem real_half_ignores_negatives `{Model} draw1 draw2
    (input_ids : tensor Z) pad1 pad2 debug1 debug2 lm1 preds1 tg1
    lm2 preds2 tg2 :
  model_keeps_shape → wf input_ids →
  forward draw1 input_ids pad1 debug1 = Some (lm1, preds1, tg1) →
  forward draw2 input_ids pad2 debug2 = Some (lm2, preds2, tg2) →
  lm1 = lm2
  ∧ ∀ b p, p < shape1 input_ids → get preds1 b p = get preds2 b p.
Proof.
  intros Hm Hwf Hf1 Hf2.
  apply forward_inv in Hf1 as (loc1 & Hfs1 & Hp1 & _).
  apply forward_inv in Hf2 as (loc2 & Hfs2 & Hp2 & _).
  destruct (forward_states_inv _ _ _ _ _ Hfs1)
    as (out & kv & _ & _ & Hout & Hlm1 & _).
  destruct (forward_states_inv _ _ _ _ _ Hfs2)
    as (out' & kv2 & _ & _ & Hout' & Hlm2 & _).
  rewrite Hout in Hout'. injection Hout' as <- <-.
  split; [congruence|].
  destruct (forward_states_shapes _ _ _ _ _ Hm Hwf Hfs1)
    as (o1 & k1 & ao1 & k1' & Ho1 & _ & Hst1 & Hwo & Hos0 & Hos1 & Hwa1 & _
        & _ & _ & _ & _ & Hws1).
  destruct (forward_states_shapes _ _ _ _ _ Hm Hwf Hfs2)
    as (o2 & k2 & ao2 & k2' & Ho2 & _ & Hst2 & _ & _ & _ & Hwa2 & _ & _ & _
        & _ & _ & Hws2).
  rewrite Hout in Ho1, Ho2. injection Ho1 as <- <-. injection Ho2 as <- <-.
  destruct (arc_predictions_spec (l_arc_states loc1) Hws1)
    as (p1 & Hp1' & _ & _ & _ & Hg1).
  destruct (arc_predictions_spec (l_arc_states loc2) Hws2)
    as (p2 & Hp2' & _ & _ & _ & Hg2).
  rewrite Hp1 in Hp1'. injection Hp1' as <-.
  rewrite Hp2 in Hp2'. injection Hp2' as <-.
  intros b p Hp. rewrite Hg1, Hg2. f_equal.
  destruct (decide (b < shape0 out)) as [Hb|Hb].
  - rewrite (get_cat1_l out ao1 (l_arc_states loc1)) by (done || lia).
    rewrite (get_cat1_l out ao2 (l_arc_states loc2)) by (done || lia).
    done.
  - destruct (cat1_shape _ _ _ Hst1) as (Hs10 & _).
    destruct (cat1_shape _ _ _ Hst2) as (Hs20 & _).
    rewrite !get_rows_None by (done || lia). done.
Qed.

Lemma real_half_ignores_negatives_witness :
  ∃ lm1 preds1 tg1 lm2 preds2 tg2,
    @forward toy_model toy_draw ids_2x3 0%Z false = Some (lm1, preds1, tg1)
    ∧ @forward toy_model toy_draw ids_2x3 5%Z true = Some (lm2, preds2, tg2)
    ∧ lm1 = lm2 ∧ get preds1 1 2 = get preds2 1 2.
Proof.
  destruct (@forward_is_Some toy_model toy_draw ids_2x3 0%Z false
              toy_keeps_shape wf_ids_2x3 ltac:(simpl; lia))
    as (lm1 & loc1 & preds1 & tg1 & _ & _ & _ & Hf1).
  destruct (@forward_is_Some toy_model toy_draw ids_2x3 5%Z true
              toy_keeps_shape wf_ids_2x3 ltac:(simpl; lia))
    as (lm2 & loc2 & preds2 & tg2 & _ & _ & _ & Hf2).
  exists lm1, preds1, tg1, lm2, preds2, tg2.
  split; [exact Hf1|]. split; [exact Hf2|].
  destruct (@real_half_ignores_negatives toy_model toy_draw toy_draw ids_2x3
              0%Z 5%Z false true lm1 preds1 tg1 lm2 preds2 tg2
              toy_keeps_shape wf_ids_2x3 Hf1 Hf2) as [Hlm Hp].
  split; [exact Hlm|]. apply Hp. simpl. lia.
Defined.

(** ** The sign of the class scores *)

Lemma shr_1_nonneg mrs : (0 ≤ shr_m mrs)%Z → (0 ≤ shr_m (shr_1 mrs))%Z.
Proof.
  destruct mrs as [m r s]. simpl.
  destruct m as [|[p|p|]|[p|p|]]; simpl; lia.
Qed.

Lemma iter_pos_shr_1_nonneg p mrs :
  (0 ≤ shr_m mrs)%Z → (0 ≤ shr_m (SpecFloat.iter_pos shr_1 p mrs))%Z.
Proof.
  revert mrs. induction p as [p IH|p IH|]; intros mrs Hm; simpl.
  - apply IH, IH. by apply shr_1_nonneg.
  - by apply IH, IH.
  - by apply shr_1_nonneg.
Qed.

Lemma shr_fexp_nonneg prec emax m e l :
  (0 ≤ m)%Z → (0 ≤ shr_m (shr_fexp prec emax m e l).1)%Z.
Proof.
  intros Hm. unfold shr_fexp, shr.
  assert (0 ≤ shr_m (shr_record_of_loc m l))%Z as H0
    by (by destruct l as [|[]]).
  destruct (fexp prec emax (Zdigits2 m + e) - e)%Z; simpl; try done.
  by apply iter_pos_shr_1_nonneg.
Qed.

Lemma round_nearest_even_nonneg m l :
  (0 ≤ m)%Z → (0 ≤ round_nearest_even m l)%Z.
Proof.
  intros Hm. unfold round_nearest_even.
  destruct l as [|[]]; try done; try lia. destruct (Z.even m); lia.
Qed.

(** Rounding a non-negative mantissa gives a float of the sign asked for,
    never NaN. *)
Lemma binary_round_aux_sign prec emax s m e l :
  (0 ≤ m)%Z → has_sign s (binary_round_aux prec emax s m e l).
Proof.
  intros Hm. unfold binary_round_aux.
  pose proof (shr_fexp_nonneg prec emax m e l Hm) as H1.
  destruct (shr_fexp prec emax m e l) as [mrs' e']. simpl in H1.
  pose proof (shr_fexp_nonneg prec emax _ e' loc_Exact
                (round_nearest_even_nonneg _ (loc_of_shr_record mrs') H1))
    as H2.
  destruct (shr_fexp prec emax _ e' loc_Exact) as [mrs'' e'']. simpl in H2.
  destruct (shr_m mrs'') as [|p|p]; simpl; [done| |lia].
  by destruct (e'' <=? emax - prec)%Z.
Qed.

Lemma SFdiv_core_binary_nonneg prec emax m1 e1 m2 e2 :
  (0 ≤ (SFdiv_core_binary prec emax (Z.pos m1) e1 (Z.pos m2) e2).1.1)%Z.
Proof.
  unfold SFdiv_core_binary.
  set (s := (e1 - e2 - _)%Z).
  set (m' := match s with
             | Z.pos _ => Z.shiftl (Z.pos m1) s
             | 0%Z => Z.pos m1
             | Z.neg _ => 0%Z
             end).
  assert (0 ≤ m')%Z as Hm'.
  { unfold m'. destruct s; try lia. by apply Z.shiftl_nonneg. }
  pose proof (Z_div_mod m' (Z.pos m2) ltac:(lia)) as Hdiv.
  destruct (Z.div_eucl m' (Z.pos m2)) as [q r]. simpl. nia.
Qed.

(** Dividing by a positive finite float keeps the sign. *)
Lemma SFdiv_sign prec emax s x m2 e2 :
  has_sign s x → has_sign s (SFdiv prec emax x (S754_finite false m2 e2)).
Proof.
  destruct x as [sx|sx| |sx mx ex]; simpl; try done.
  - intros <-. by destruct sx.
  - intros <-. by destruct sx.
  - intros <-.
    pose proof (SFdiv_core_binary_nonneg prec emax mx ex m2 e2) as Hq.
    destruct (SFdiv_core_binary prec emax (Z.pos mx) ex (Z.pos m2) e2)
      as [[mz ez] lz]. simpl in Hq.
    rewrite xorb_false_r. by apply binary_round_aux_sign.
Qed.

Lemma SFleb_opp_l y : has_sign false y → SFleb (SFopp y) y = true.
Proof. destruct y as [[]|[]| |[] m e]; simpl; done. Qed.

Lemma SFleb_opp_r y : has_sign true y → SFleb y (SFopp y) = true.
Proof. destruct y as [[]|[]| |[] m e]; simpl; done. Qed.

(** X12: positive points to label 1: in a format where 2 is a positive
    finite number, a head output with a clear sign bit (0, a positive
    number or +infinity) gives a fake score not below the real score, and a
    head output with the sign bit set gives a real score not below the fake
    score. *)
Theorem positive_score_points_to_fake `{Model} (arc_states : tensor hidden)
    arc_preds b p h :
  (∃ m e, two = S754_finite false m e) →
  wf arc_states →
  arc_predictions arc_states = Some arc_preds →
  get arc_states b p = Some h →
  ∃ real fake,
    get arc_preds b p = Some [real; fake]
    ∧ (has_sign false (arc_head h) → SFleb real fake = true)
    ∧ (has_sign true (arc_head h) → SFleb fake real = true).
Proof.
  intros (m2 & e2 & Htwo) Hwf Hp Hh.
  destruct (arc_predictions_spec arc_states Hwf)
    as (preds & Hp' & _ & _ & _ & Hget).
  rewrite Hp in Hp'. injection Hp' as <-.
  exists (fhalf (fneg (arc_head h))), (fhalf (arc_head h)).
  split; [by rewrite Hget, Hh|].
  assert (fhalf (fneg (arc_head h)) = SFopp (fhalf (arc_head h))) as ->
    by apply SFdiv_opp_l.
  unfold fhalf. rewrite Htwo. split; intros Hs.
  - by apply SFleb_opp_l, SFdiv_sign.
  - by apply SFleb_opp_r, SFdiv_sign.
Qed.

Lemma positive_score_points_to_fake_witness :
  ∃ real fake,
    get (Tensor 1 1 [[[real; fake]]]) 0 0 = Some [real; fake]
    ∧ @arc_predictions toy_model (Tensor 1 1 [[float_of_Z 5]])
      = Some (Tensor 1 1 [[[real; fake]]])
    ∧ SFleb real fake = true.
Proof.
  destruct (@positive_score_points_to_fake toy_model
              (Tensor 1 1 [[float_of_Z 5]])
              (Tensor 1 1 [[[S754_finite true 10485760 102;
                             S754_finite false 10485760 102]]])
              0 0 (float_of_Z 5))
    as (real & fake & Hget & Hpos & _).
  - eexists _, _. vm_compute. reflexivity.
  - split; [reflexivity|]. repeat constructor.
  - vm_compute. reflexivity.
  - vm_compute. reflexivity.
  - injection Hget as <- <-. eexists _, _.
    split; [reflexivity|]. split; [vm_compute; reflexivity|].
    apply Hpos. vm_compute. reflexivity.
Defined.

(** X13: an arc position sees the context its token was drawn from: in the
    uncached mask, arc position i >= 1 (row L + i) may attend to a column j
    of the real sequence exactly when real position i - 1 (row i - 1) may,
    and arc position 0 (row L) sees no real token at all. *)
Theorem arc_row_sees_previous_context (input_ids : tensor Z) mask i j :
  _get_arc_mask input_ids false = Some mask →
  i < shape1 input_ids → j < shape1 input_ids →
  (1 ≤ i →
   may_attend mask (shape1 input_ids + i) j ↔ may_attend mask (i - 1) j)
  ∧ ¬ may_attend mask (shape1 input_ids) j.
Proof.
  intros Hmask Hi Hj. split.
  - intros Hi1.
    rewrite (uncached_mask_permits input_ids mask _ j Hmask) by lia.
    rewrite (uncached_mask_permits input_ids mask (i - 1) j Hmask) by lia.
    rewrite decide_False by lia. rewrite decide_True by lia. lia.
  - rewrite (uncached_mask_permits input_ids mask _ j Hmask) by lia.
    rewrite decide_False by lia. lia.
Qed.

Lemma arc_row_sees_previous_context_witness :
  ∃ mask,
    _get_arc_mask ids_2x3 false = Some mask
    ∧ (may_attend mask 5 1 ↔ may_attend mask 1 1)
    ∧ ¬ may_attend mask 3 1.
Proof.
  destruct (uncached_mask_quadrants ids_2x3)
    as (_ & _ & mask & _ & _ & _ & Hmask & _).
  exists mask. split; [exact Hmask|].
  destruct (arc_row_sees_previous_context ids_2x3 mask 2 1 Hmask
              ltac:(simpl; lia) ltac:(simpl; lia)) as [Hprev Hzero].
  split; [apply Hprev; lia | exact Hzero].
Defined.
